(** * edge-tts: the streaming session of [generate] and the channel set-up of [connect]

    A shallow embedding of [src/lib/connect.ts] and [src/lib/generate.ts].
    The platform functions the two files call (String.prototype.indexOf,
    includes, split, trim, RegExp.prototype.exec, parseInt, TextDecoder,
    Promise.withResolvers, setTimeout, WebSocket) are modelled in the first
    modules; the two source files follow, and then the properties. *)

From Stdlib Require Import ZArith Lia.
From Stdlib.Strings Require Import Ascii String Byte.
From stdpp Require Import base option list gmap strings.

Local Open Scope Z_scope.

(** ** JavaScript strings

    A JavaScript string is a sequence of UTF-16 code units. *)
Module JS.

Definition code_unit := Z.
Definition jsstring := list code_unit.

(** An ASCII literal of the source as a sequence of code units. *)
Fixpoint str (s : string) : jsstring :=
  match s with
  | EmptyString => []
  | String a s' => Z.of_N (N_of_ascii a) :: str s'
  end.

Definition LF : jsstring := [10].
Definition CRLF : jsstring := [13; 10].
(** The double quote character. *)
Definition DQ : jsstring := [34].

Fixpoint starts_with (pat s : jsstring) : bool :=
  match pat, s with
  | [], _ => true
  | p :: pat', c :: s' => (p =? c) && starts_with pat' s'
  | _ :: _, [] => false
  end.

(** Position of the leftmost occurrence of [pat] in [s]. *)
Fixpoint find (pat s : jsstring) : option nat :=
  if starts_with pat s then Some 0%nat
  else match s with
       | [] => None
       | _ :: s' => S <$> find pat s'
       end.

(** [String.prototype.indexOf]: the index of the first occurrence, or -1. *)
Definition indexOf (s pat : jsstring) : Z :=
  match find pat s with
  | Some i => Z.of_nat i
  | None => -1
  end.

(** [String.prototype.includes]. *)
Definition includes (s pat : jsstring) : bool :=
  bool_decide (is_Some (find pat s)).

(** [String.prototype.substring(0, e)] for a non-negative [e]. *)
Definition substring0 (s : jsstring) (e : Z) : jsstring := take (Z.to_nat e) s.

(** [String.prototype.split] with a non-empty separator string: [cur] is
    the piece being read, in reverse; [skip] counts the code units of a
    separator occurrence still to be passed over. *)
Fixpoint split_go (pat : jsstring) (skip : nat) (cur : jsstring) (s : jsstring)
  : list jsstring :=
  match s with
  | [] => [rev cur]
  | c :: s' =>
      match skip with
      | S k => split_go pat k cur s'
      | O =>
          if starts_with pat s
          then rev cur :: split_go pat (length pat - 1) [] s'
          else split_go pat 0 (c :: cur) s'
      end
  end.

Definition split (s pat : jsstring) : list jsstring := split_go pat 0 [] s.

(** White space and line terminators, as [String.prototype.trim] strips them. *)
Definition is_white_space (c : code_unit) : bool :=
  (c =? 9) || (c =? 10) || (c =? 11) || (c =? 12) || (c =? 13) || (c =? 32)
  || (c =? 160) || (c =? 5760) || ((8192 <=? c) && (c <=? 8202))
  || (c =? 8232) || (c =? 8233) || (c =? 8239) || (c =? 8287)
  || (c =? 12288) || (c =? 65279).

Fixpoint trim_start (s : jsstring) : jsstring :=
  match s with
  | c :: s' => if is_white_space c then trim_start s' else s
  | [] => []
  end.

Definition trim (s : jsstring) : jsstring :=
  rev (trim_start (rev (trim_start s))).

(** *** The regular expression [/Content-Length: (\d+)/i]

    Without the [u] flag, ignore-case matching compares the canonical
    (upper-cased) form of single code units, and never maps a code unit
    above 127 to one below 128: against the ASCII pattern only ASCII case
    is folded. *)
Definition canonicalize (c : code_unit) : code_unit :=
  if (97 <=? c) && (c <=? 122) then c - 32 else c.

Fixpoint match_ci (pat s : jsstring) : option jsstring :=
  match pat, s with
  | [], _ => Some s
  | p :: pat', c :: s' =>
      if canonicalize p =? canonicalize c then match_ci pat' s' else None
  | _ :: _, [] => None
  end.

Definition is_digit (c : code_unit) : bool := (48 <=? c) && (c <=? 57).

(** The greedy [\d+]: the longest run of digits at the head of [s]. *)
Fixpoint digits_prefix (s : jsstring) : jsstring :=
  match s with
  | c :: s' => if is_digit c then c :: digits_prefix s' else []
  | [] => []
  end.

(** The match of [key (\d+)] anchored at the head of [s]: capture group 1. *)
Definition match_here (key s : jsstring) : option jsstring :=
  match match_ci key s with
  | Some rest =>
      match digits_prefix rest with
      | [] => None
      | ds => Some ds
      end
  | None => None
  end.

(** [RegExp.prototype.exec] for [/key(\d+)/i]: the leftmost match's
    capture group, or [None] for [null]. *)
Fixpoint exec_ci_digits (key s : jsstring) : option jsstring :=
  match match_here key s with
  | Some ds => Some ds
  | None =>
      match s with
      | [] => None
      | _ :: s' => exec_ci_digits key s'
      end
  end.

(** [parseInt(ds, 10)] on a string of decimal digits. The source's
    numbers are doubles; the model is exact, as doubles are on the
    integers below 2^53. Beyond [MAX_SAFE_INTEGER] the source's [parseInt]
    and [+=] round to the nearest double, which the model does not
    follow. *)
Definition parseInt10 (ds : jsstring) : Z :=
  fold_left (fun acc c => 10 * acc + (c - 48)) ds 0.

(** [Number.MAX_SAFE_INTEGER]: up to here every integer is a number of the
    source, and a sum of two of them is exact. *)
Definition MAX_SAFE_INTEGER : Z := 2 ^ 53 - 1.

(** A property that may be absent ([undefined]), [null], or hold a value. *)
Inductive optional (A : Type) : Type :=
| Undefined
| Null
| Value (a : A).
Arguments Undefined {A}.
Arguments Null {A}.
Arguments Value {A} a.

(** An absent or null option. *)
Definition nullish {A} (o : optional A) : Prop := o = Undefined \/ o = Null.

(** The nullish coalescing operator [o ?? d]. *)
Definition nullish_or {A} (o : optional A) (d : A) : A :=
  match o with
  | Value a => a
  | Undefined | Null => d
  end.

(** Truthiness of an optional string: [!o] is [negb (truthy o)]. *)
Definition truthy (o : optional jsstring) : bool :=
  match o with
  | Value (_ :: _) => true
  | Value [] | Undefined | Null => false
  end.

(** Property values of a plain options object. *)
Inductive value : Type :=
| VUndefined
| VNull
| VBoolean (b : bool)
| VNumber (n : Z)
| VString (s : jsstring).

(** An object as a finite map from property names to values. *)
Definition object := gmap string value.

(** Object spread [{...a, ...b}]: the properties of [b] win. *)
Definition spread (a b : object) : object := b ∪ a.

(** Spreading an absent or null object copies nothing. *)
Definition spread_optional (a : object) (b : optional object) : object :=
  match b with
  | Value o => spread a o
  | Undefined | Null => a
  end.

End JS.

(** ** [TextDecoder]: the WHATWG UTF-8 decoder, replacement mode *)
Module Utf8.

Import JS.

Definition byte_val (b : byte) : Z := Z.of_N (Byte.to_N b).

(** The decoder between two bytes: at the start of a sequence, or inside
    one with the code point so far, the continuation bytes still needed,
    and the range the next byte must lie in. *)
Inductive dstate : Type :=
| Start
| Cont (cp : Z) (needed : nat) (lower upper : Z).

(** The code point a decoding error is replaced by, U+FFFD. *)
Definition REPLACEMENT : Z := 65533.

(** A byte read at the start of a sequence. *)
Definition lead (b : Z) : dstate * list Z :=
  if b <=? 127 then (Start, [b])
  else if (194 <=? b) && (b <=? 223) then (Cont (Z.land b 31) 1 128 191, [])
  else if (224 <=? b) && (b <=? 239) then
    (Cont (Z.land b 15) 2 (if b =? 224 then 160 else 128)
          (if b =? 237 then 159 else 191), [])
  else if (240 <=? b) && (b <=? 244) then
    (Cont (Z.land b 7) 3 (if b =? 240 then 144 else 128)
          (if b =? 244 then 143 else 191), [])
  else (Start, [REPLACEMENT]).

(** One byte through the decoder. A byte out of the expected range ends
    the sequence with an error and is read again as a lead byte. *)
Definition dstep (st : dstate) (b : Z) : dstate * list Z :=
  match st with
  | Start => lead b
  | Cont cp needed lower upper =>
      if (lower <=? b) && (b <=? upper) then
        let cp' := Z.lor (Z.shiftl cp 6) (Z.land b 63) in
        match needed with
        | S (S k) => (Cont cp' (S k) 128 191, [])
        | _ => (Start, [cp'])
        end
      else
        let '(st', out) := lead b in (st', REPLACEMENT :: out)
  end.

Fixpoint code_points (st : dstate) (bs : list byte) : list Z :=
  match bs with
  | [] => match st with Start => [] | Cont _ _ _ _ => [REPLACEMENT] end
  | b :: bs' =>
      let '(st', out) := dstep st (byte_val b) in
      out ++ code_points st' bs'
  end.

(** A code point as UTF-16 code units. *)
Definition utf16 (cp : Z) : jsstring :=
  if cp <? 65536 then [cp]
  else [55296 + Z.shiftr (cp - 65536) 10; 56320 + Z.land (cp - 65536) 1023].

(** A leading byte order mark is dropped ([ignoreBOM] is false). *)
Definition strip_bom (cps : list Z) : list Z :=
  match cps with
  | cp :: cps' => if cp =? 65279 then cps' else cps
  | [] => []
  end.

(** [new TextDecoder().decode(bytes)]. *)
Definition decode (bs : list byte) : jsstring :=
  concat (utf16 <$> strip_bom (code_points Start bs)).

(** The bytes of an ASCII literal. *)
Fixpoint ascii_bytes (s : string) : list byte :=
  match s with
  | EmptyString => []
  | String a s' => byte_of_ascii a :: ascii_bytes s'
  end.

(** The code units of a sequence of code points. *)
Definition units (cps : list Z) : jsstring := concat (utf16 <$> cps).

(** What the decoder still owes at the end of the input: inside a
    sequence, one replacement character. *)
Definition owed (st : dstate) : nat :=
  match st with
  | Start => 0
  | Cont _ _ _ _ => 1
  end.

(** Inside a sequence the decoder accepts continuation bytes only, so an
    ASCII byte ends the sequence. *)
Definition expects_continuation (st : dstate) : Prop :=
  match st with
  | Start => True
  | Cont _ _ lower _ => 128 <= lower
  end.

(** The states the decoder reaches from [Start]: the bounds are those of
    continuation bytes, and the sequence that is open will end in a code
    point of 128 or more. *)
Definition sound (st : dstate) : Prop :=
  match st with
  | Start => True
  | Cont cp needed lower upper =>
      128 <= lower /\ upper <= 191 /\ 0 <= cp
      /\ match needed with
         | 1%nat => 2 <= cp
         | 2%nat => 1 <= cp \/ 160 <= lower
         | 3%nat => 1 <= cp \/ 144 <= lower
         | _ => False
         end
  end.

(** A code point or code unit outside the ASCII range. *)
Definition high (c : Z) : Prop := 128 <= c.

End Utf8.

(** ** The platform: promises, timers, sockets, and the collaborators *)
Module Platform.

Import JS.

(** What [generate] takes from outside its two files. *)
Class Collaborators : Type := {
  (** The [Event] a socket hands to an error listener. *)
  Event : Type;
  (** What [JSON.parse] yields on a metadata frame. *)
  AudioMetadata : Type;
  (** [ReturnType<typeof parseSubtitle>]. *)
  Subtitle : Type;
  (** [JSON.parse]; [None] when it throws a [SyntaxError]. *)
  JSON_parse : jsstring -> option AudioMetadata;
  (** Modelled from the spec: [parseSubtitle] of [src/lib/subtitle.ts],
      which is not among the sources. Section 6 of the specification
      gives it as a pure function of the ordered metadata list and the
      options [{splitBy, count, ...}]; the options object never has a
      [metadata] property of its own ([Omit<ParseSubtitleOptions,
      "metadata">]). *)
  parseSubtitle : list AudioMetadata -> object -> Subtitle;
}.

(** The values the two files throw or reject with. *)
Inductive error `{Collaborators} : Type :=
| OutputFormatRequired
| ConnectTimeout
| SessionTimeout
| UnexpectedClose (code : Z) (reason : jsstring)
| IncompleteAudio (got expected : Z)
| TransportError (ev : Event)
| SyntaxError (text : jsstring)
| TypeError.

(** The state of a promise made by [Promise.withResolvers]. *)
Inductive promise (A E : Type) : Type :=
| Pending
| Fulfilled (a : A)
| Rejected (e : E).
Arguments Pending {A E}.
Arguments Fulfilled {A E} a.
Arguments Rejected {A E} e.

(** The resolving functions act on a pending promise only. *)
Definition resolve_with {A E} (a : A) (p : promise A E) : promise A E :=
  match p with
  | Pending => Fulfilled a
  | _ => p
  end.

Definition reject_with {A E} (e : E) (p : promise A E) : promise A E :=
  match p with
  | Pending => Rejected e
  | _ => p
  end.

Definition settled {A E} (p : promise A E) : bool :=
  match p with
  | Pending => false
  | _ => true
  end.

(** A timer made by [setTimeout]: its callback runs only while armed. *)
Inductive timer : Type := Armed | Cleared | Fired.

Definition clear (t : timer) : timer :=
  match t with
  | Armed => Cleared
  | _ => t
  end.

Inductive ready_state : Type := CONNECTING | OPEN | CLOSING | CLOSED.

(** A [WebSocket]: its url, ready state, and the messages handed to [send]
    while open, oldest first. *)
Record WebSocket : Type := {
  url : jsstring;
  readyState : ready_state;
  sent : list jsstring;
}.

Definition ws_new (u : jsstring) : WebSocket :=
  {| url := u; readyState := CONNECTING; sent := [] |}.

Definition ws_set_state (r : ready_state) (ws : WebSocket) : WebSocket :=
  {| url := url ws; readyState := r; sent := sent ws |}.

(** [ws.send(m)] transmits on an open socket; on a closing or closed one
    the message is dropped. *)
Definition ws_send (m : jsstring) (ws : WebSocket) : WebSocket :=
  match readyState ws with
  | OPEN => {| url := url ws; readyState := OPEN; sent := sent ws ++ [m] |}
  | _ => ws
  end.

(** [ws.close()] starts the closing handshake unless it has started. *)
Definition ws_close (ws : WebSocket) : WebSocket :=
  match readyState ws with
  | CONNECTING | OPEN => ws_set_state CLOSING ws
  | _ => ws
  end.

Definition is_open (ws : WebSocket) : bool :=
  match readyState ws with
  | CONNECTING | OPEN => true
  | _ => false
  end.

(** A [Blob]: its bytes and its MIME type. *)
Record Blob : Type := {
  blob_bytes : list byte;
  blob_type : jsstring;
}.

(** [new Blob(parts, { type })]. *)
Definition blob_of (parts : list (list byte)) (type : jsstring) : Blob :=
  {| blob_bytes := concat parts; blob_type := type |}.

End Platform.

(** ** [src/lib/connect.ts] *)
Module Connect.

Import JS Platform.

Section Connect.
Context `{Collaborators}.

(** [url.toString()], with the search parameters set. *)
Definition endpoint : jsstring :=
  str "wss://speech.platform.bing.com/consumer/speech/synthesize/readaloud/edge/v1?TrustedClientToken=6A5AA1D4EAFF4E9FB37E23D68491D6F4".

(** A quoted JSON name or string of the template. *)
Definition quoted (s : jsstring) : jsstring := DQ ++ s ++ DQ.

Definition initialMessage_head : jsstring :=
  LF ++ str "  Content-Type:application/json; charset=utf-8" ++ CRLF
  ++ str "Path:speech.config" ++ CRLF ++ CRLF ++ LF
  ++ LF ++ str "  {"
  ++ LF ++ str "    " ++ quoted (str "context") ++ str ": {"
  ++ LF ++ str "      " ++ quoted (str "synthesis") ++ str ": {"
  ++ LF ++ str "        " ++ quoted (str "audio") ++ str ": {"
  ++ LF ++ str "          " ++ quoted (str "metadataoptions") ++ str ": {"
  ++ LF ++ str "            " ++ quoted (str "sentenceBoundaryEnabled")
        ++ str ": " ++ quoted (str "false") ++ str ","
  ++ LF ++ str "            " ++ quoted (str "wordBoundaryEnabled")
        ++ str ": " ++ quoted (str "true")
  ++ LF ++ str "          },"
  ++ LF ++ str "          " ++ quoted (str "outputFormat") ++ str ": " ++ DQ.

Definition initialMessage_tail : jsstring :=
  DQ
  ++ LF ++ str "        }"
  ++ LF ++ str "      }"
  ++ LF ++ str "    }"
  ++ LF ++ str "  }"
  ++ LF.

(** The template literal of lines 24 to 40. *)
Definition initialMessage (outputFormat : jsstring) : jsstring :=
  initialMessage_head ++ outputFormat ++ initialMessage_tail.

(** What [connect] leaves behind when it returns: the socket, the message
    its open listener will send, its promise and its 10 s timer. The
    promise is fulfilled with the socket [ws] itself. *)
Record connection : Type := {
  ws : WebSocket;
  message : jsstring;
  promise : Platform.promise unit error;
  timeout : timer;
}.

(** [connect(outputFormat)]; [inl] is a thrown error. *)
Definition connect (outputFormat : optional jsstring)
  : error + connection :=
  match outputFormat with
  | Value (c :: f) =>
      inr {| ws := ws_new endpoint;
             message := initialMessage (c :: f);
             promise := Pending;
             timeout := Armed |}
  | _ => inl OutputFormatRequired
  end.

(** What happens to the socket while [connect]'s promise is awaited. *)
Inductive event : Type :=
| Open
| Error (ev : Event)
| Close
| Timer.

Definition step (e : event) (c : connection) : connection :=
  match e with
  | Open =>
      (* clearTimeout(timeout); ws.send(initialMessage); resolve(ws) *)
      {| ws := ws_send (message c) (ws_set_state OPEN (ws c));
         message := message c;
         promise := resolve_with () (promise c);
         timeout := clear (timeout c) |}
  | Error ev =>
      (* clearTimeout(timeout); reject(error) *)
      {| ws := ws_set_state CLOSED (ws c);
         message := message c;
         promise := reject_with (TransportError ev) (promise c);
         timeout := clear (timeout c) |}
  | Close =>
      (* no listener *)
      {| ws := ws_set_state CLOSED (ws c);
         message := message c;
         promise := promise c;
         timeout := timeout c |}
  | Timer =>
      match timeout c with
      | Armed =>
          (* ws.close(); reject(new Error(...)) *)
          {| ws := ws_close (ws c);
             message := message c;
             promise := reject_with ConnectTimeout (promise c);
             timeout := Fired |}
      | _ => c
      end
  end.

Definition run (es : list event) (c : connection) : connection :=
  fold_left (fun c e => step e c) es c.

(** The number of open events among [es]. *)
Fixpoint opens (es : list event) : nat :=
  match es with
  | [] => 0
  | Open :: es' => S (opens es')
  | _ :: es' => opens es'
  end.

End Connect.

End Connect.

(** ** [src/lib/generate.ts] *)
Module Generate.

Import JS Utf8 Platform.

Section Generate.
Context `{Collaborators}.

Record GenerateOptions : Type := {
  text : jsstring;
  voice : optional jsstring;
  language : optional jsstring;
  outputFormat : optional jsstring;
  rate : optional jsstring;
  pitch : optional jsstring;
  volume : optional jsstring;
  subtitle : optional object;
}.

(** The result's second property is [subtitle] in the source; the name is
    taken by the option above. *)
Record GenerateResult : Type := {
  audio : Blob;
  subtitles : Subtitle;
}.

(** The constants [generate] binds in lines 91 to 103. *)
Record settings : Type := {
  the_voice : jsstring;
  the_language : jsstring;
  the_outputFormat : jsstring;
  the_rate : jsstring;
  the_pitch : jsstring;
  the_volume : jsstring;
  the_subtitle : object;
}.

Definition default_subtitle : object :=
  <["splitBy"%string := VString (str "sentence")]>
    (<["count"%string := VNumber 1]> ∅).

Definition settings_of (options : GenerateOptions) : settings :=
  {| the_voice := nullish_or (voice options) (str "en-US-AvaNeural");
     the_language := nullish_or (language options) (str "en-US");
     the_outputFormat :=
       nullish_or (outputFormat options) (str "audio-24khz-96kbitrate-mono-mp3");
     the_rate := nullish_or (rate options) (str "default");
     the_pitch := nullish_or (pitch options) (str "default");
     the_volume := nullish_or (volume options) (str "default");
     the_subtitle := spread_optional default_subtitle (subtitle options) |}.

(** The subtitle options in the specification's words, to compare with
    [the_subtitle]: the fixed defaults when the option is null or
    undefined, the caller's object in every other case. *)
Definition subtitle_by_nullish (o : optional object) : object :=
  nullish_or o default_subtitle.

(** [generate] up to its first [await]: the settings, then
    [connect(outputFormat)]. An error thrown by [connect] rejects the
    promise [generate] returns. *)
Definition generate (options : GenerateOptions)
  : error + (settings * Connect.connection) :=
  let st := settings_of options in
  match Connect.connect (Value (the_outputFormat st)) with
  | inl e => inl e
  | inr c => inr (st, c)
  end.

Definition quoted := Connect.quoted.

(** The template literal of lines 109 to 121. *)
Definition requestString (requestId : jsstring) (st : settings) (txt : jsstring)
  : jsstring :=
  LF ++ str "  X-RequestId:" ++ requestId ++ CRLF
  ++ LF ++ str "  Content-Type:application/ssml+xml" ++ CRLF
  ++ LF ++ str "  Path:ssml" ++ CRLF ++ CRLF
  ++ LF
  ++ LF ++ str "  <speak version=" ++ quoted (str "1.0")
        ++ str " xmlns=" ++ quoted (str "http://www.w3.org/2001/10/synthesis")
        ++ str " xmlns:mstts=" ++ quoted (str "https://www.w3.org/2001/mstts")
        ++ str " xml:lang=" ++ quoted (the_language st) ++ str ">"
  ++ LF ++ str "    <voice name=" ++ quoted (the_voice st) ++ str ">"
  ++ LF ++ str "      <prosody rate=" ++ quoted (the_rate st)
        ++ str " pitch=" ++ quoted (the_pitch st)
        ++ str " volume=" ++ quoted (the_volume st) ++ str ">"
  ++ LF ++ str "        " ++ txt
  ++ LF ++ str "      </prosody>"
  ++ LF ++ str "    </voice>"
  ++ LF ++ str "  </speak>"
  ++ LF ++ str "  ".

(** The variables the listeners of one call share. [suspended] holds, for
    every run of [dealRawAudioChunks] waiting at [await blob.arrayBuffer()],
    the chunk it has shifted off the queue. [expectedLength] and the byte
    counts are doubles in the source and integers here: byte counts stay
    below 2^53, where the two agree. *)
Record session : Type := {
  audioChunks : list (list byte);
  subtitleChunks : list AudioMetadata;
  rawAudioChunks : list (list byte);
  isAudioComplete : bool;
  expectedLength : Z;
  promise : Platform.promise GenerateResult error;
  timeout : timer;
  socket : WebSocket;
  suspended : list (list byte);
  subtitle_options : object;
}.

Definition with_audioChunks v (s : session) : session :=
  {| audioChunks := v; subtitleChunks := subtitleChunks s;
     rawAudioChunks := rawAudioChunks s; isAudioComplete := isAudioComplete s;
     expectedLength := expectedLength s; promise := promise s;
     timeout := timeout s; socket := socket s; suspended := suspended s;
     subtitle_options := subtitle_options s |}.

Definition with_subtitleChunks v (s : session) : session :=
  {| audioChunks := audioChunks s; subtitleChunks := v;
     rawAudioChunks := rawAudioChunks s; isAudioComplete := isAudioComplete s;
     expectedLength := expectedLength s; promise := promise s;
     timeout := timeout s; socket := socket s; suspended := suspended s;
     subtitle_options := subtitle_options s |}.

Definition with_rawAudioChunks v (s : session) : session :=
  {| audioChunks := audioChunks s; subtitleChunks := subtitleChunks s;
     rawAudioChunks := v; isAudioComplete := isAudioComplete s;
     expectedLength := expectedLength s; promise := promise s;
     timeout := timeout s; socket := socket s; suspended := suspended s;
     subtitle_options := subtitle_options s |}.

Definition with_isAudioComplete v (s : session) : session :=
  {| audioChunks := audioChunks s; subtitleChunks := subtitleChunks s;
     rawAudioChunks := rawAudioChunks s; isAudioComplete := v;
     expectedLength := expectedLength s; promise := promise s;
     timeout := timeout s; socket := socket s; suspended := suspended s;
     subtitle_options := subtitle_options s |}.

Definition with_expectedLength v (s : session) : session :=
  {| audioChunks := audioChunks s; subtitleChunks := subtitleChunks s;
     rawAudioChunks := rawAudioChunks s; isAudioComplete := isAudioComplete s;
     expectedLength := v; promise := promise s;
     timeout := timeout s; socket := socket s; suspended := suspended s;
     subtitle_options := subtitle_options s |}.

Definition with_promise v (s : session) : session :=
  {| audioChunks := audioChunks s; subtitleChunks := subtitleChunks s;
     rawAudioChunks := rawAudioChunks s; isAudioComplete := isAudioComplete s;
     expectedLength := expectedLength s; promise := v;
     timeout := timeout s; socket := socket s; suspended := suspended s;
     subtitle_options := subtitle_options s |}.

Definition with_timeout v (s : session) : session :=
  {| audioChunks := audioChunks s; subtitleChunks := subtitleChunks s;
     rawAudioChunks := rawAudioChunks s; isAudioComplete := isAudioComplete s;
     expectedLength := expectedLength s; promise := promise s;
     timeout := v; socket := socket s; suspended := suspended s;
     subtitle_options := subtitle_options s |}.

Definition with_socket v (s : session) : session :=
  {| audioChunks := audioChunks s; subtitleChunks := subtitleChunks s;
     rawAudioChunks := rawAudioChunks s; isAudioComplete := isAudioComplete s;
     expectedLength := expectedLength s; promise := promise s;
     timeout := timeout s; socket := v; suspended := suspended s;
     subtitle_options := subtitle_options s |}.

Definition with_suspended v (s : session) : session :=
  {| audioChunks := audioChunks s; subtitleChunks := subtitleChunks s;
     rawAudioChunks := rawAudioChunks s; isAudioComplete := isAudioComplete s;
     expectedLength := expectedLength s; promise := promise s;
     timeout := timeout s; socket := socket s; suspended := v;
     subtitle_options := subtitle_options s |}.

(** The statements the listeners are made of. *)
Definition resolve (r : GenerateResult) (s : session) : session :=
  with_promise (resolve_with r (promise s)) s.

Definition reject (e : error) (s : session) : session :=
  with_promise (reject_with e (promise s)) s.

Definition clearTimeout (s : session) : session :=
  with_timeout (clear (timeout s)) s.

Definition socket_close (s : session) : session :=
  with_socket (ws_close (socket s)) s.

(** [generate] from the fulfilment of [connect]'s promise to its
    [return promise] (lines 107 to 223): the request identifier drawn by
    [crypto.randomUUID()], the opened socket, and the listeners' variables. *)
Definition start (requestId : jsstring) (options : GenerateOptions)
    (st : settings) (ws : WebSocket) : session :=
  {| audioChunks := [];
     subtitleChunks := [];
     rawAudioChunks := [];
     isAudioComplete := false;
     expectedLength := 0;
     promise := Pending;
     timeout := Armed;
     socket := ws_send (requestString requestId st (text options)) ws;
     suspended := [];
     subtitle_options := the_subtitle st |}.

Definition separator : jsstring := str "Path:audio" ++ CRLF.

Definition content_length_key : jsstring := str "Content-Length: ".

(** The body of the loop of [dealRawAudioChunks] after its [await]
    (lines 143 to 154), on the bytes of one chunk. *)
Definition deal (bytes : list byte) (s : session) : session :=
  let binaryString := decode bytes in
  let index := indexOf binaryString separator in
  if index =? -1 then s
  else
    let headerText := substring0 binaryString index in
    let s1 :=
      match exec_ci_digits content_length_key headerText with
      | Some digits =>
          with_expectedLength (expectedLength s + parseInt10 digits) s
      | None => s
      end in
    let audioData := drop (Z.to_nat (index + Z.of_nat (length separator))) bytes in
    with_audioChunks (audioChunks s1 ++ [audioData]) s1.

Definition totalLength (s : session) : Z :=
  fold_left (fun acc chunk => acc + Z.of_nat (length chunk)) (audioChunks s) 0.

(** The [turn.end] branch after [await dealRawAudioChunks()]
    (lines 194 to 214). *)
Definition finish (s : session) : session :=
  if (0 <? expectedLength s) && (totalLength s <? expectedLength s)
  then reject (IncompleteAudio (totalLength s) (expectedLength s)) s
  else
    let s1 := clearTimeout (with_isAudioComplete true s) in
    let result :=
      {| audio := blob_of (audioChunks s1) (str "audio/mp3");
         subtitles := parseSubtitle (subtitleChunks s1) (subtitle_options s1) |} in
    socket_close (resolve result s1).

(** [dealRawAudioChunks] from the test of its loop: with a chunk queued it
    shifts the chunk and waits for its bytes; with none it returns, and the
    [turn.end] branch that awaited it goes on. A queued chunk is a [Blob],
    an object, so [if (!data) continue] never skips one. *)
Definition drain (s : session) : session :=
  match rawAudioChunks s with
  | data :: rest =>
      with_suspended (suspended s ++ [data]) (with_rawAudioChunks rest s)
  | [] => finish s
  end.

(** The [catch] clause of the message listener. *)
Definition catch (e : error) (s : session) : session :=
  reject e (clearTimeout s).

Definition metadata_marker : jsstring := str "Path:audio.metadata".
Definition turn_end_marker : jsstring := str "Path:turn.end".

(** [message.data]: a string or a [Blob]. *)
Inductive data : Type :=
| Text (t : jsstring)
| Binary (b : list byte).

(** [message.data.split("Path:audio.metadata")[1].trim()]; [None] when
    the split has no second piece and [trim] is called on [undefined]. *)
Definition metadata_payload (t : jsstring) : option jsstring :=
  trim <$> split t metadata_marker !! 1%nat.

(** The message listener (lines 178 to 220), up to its first [await]. *)
Definition on_message (d : data) (s : session) : session :=
  match d with
  | Binary b => with_rawAudioChunks (rawAudioChunks s ++ [b]) s
  | Text t =>
      if includes t metadata_marker then
        match metadata_payload t with
        | Some jsonString =>
            match JSON_parse jsonString with
            | Some json => with_subtitleChunks (subtitleChunks s ++ [json]) s
            | None => catch (SyntaxError jsonString) s
            end
        | None => catch TypeError s
        end
      else if includes t turn_end_marker then drain s
      else s
  end.

(** What the event loop delivers to one session. [Bytes k] is the
    fulfilment of the [blob.arrayBuffer()] promise that the [k]-th
    suspended run of [dealRawAudioChunks] awaits. A listener runs without
    interruption up to such an [await]; there, any other event may come
    first. The rest of the termination branch, behind
    [await dealRawAudioChunks()], is taken in the step that ends its
    drain: a schedule in which another suspended run resumes between the
    two is not among the model's. *)
Inductive event : Type :=
| Message (d : data)
| Close (code : Z) (reason : jsstring)
| Error (ev : Event)
| Timer
| Bytes (k : nat).

(** One event. The socket is closed when a close or an error event is
    dispatched. The timer's callback runs only if the timer is armed. *)
Definition step (e : event) (s : session) : session :=
  match e with
  | Message d => on_message d s
  | Close code reason =>
      let s0 := with_socket (ws_set_state CLOSED (socket s)) s in
      clearTimeout
        (if isAudioComplete s0 then s0
         else reject (UnexpectedClose code reason) s0)
  | Error ev =>
      let s0 := with_socket (ws_set_state CLOSED (socket s)) s in
      reject (TransportError ev) (clearTimeout s0)
  | Timer =>
      match timeout s with
      | Armed =>
          reject SessionTimeout (socket_close (with_timeout Fired s))
      | _ => s
      end
  | Bytes k =>
      match suspended s !! k with
      | Some bytes => drain (deal bytes (with_suspended (delete k (suspended s)) s))
      | None => s
      end
  end.

Definition run (es : list event) (s : session) : session :=
  fold_left (fun s e => step e s) es s.

(** The states a session of [generate] passes through. *)
Inductive reachable : session -> Prop :=
| reachable_start requestId options st ws :
    reachable (start requestId options st ws)
| reachable_step e s : reachable s -> reachable (step e s).

(** While the promise is pending the completion flag is down and the
    deadline timer is armed; a fulfilled promise has the flag up. *)
Definition consistent (s : session) : Prop :=
  (promise s = Pending -> isAudioComplete s = false /\ timeout s = Armed)
  /\ (forall r, promise s = Fulfilled r -> isAudioComplete s = true).

(** *** What one frame contributes *)

(** The fragment [deal] appends for a chunk, if any. *)
Definition fragment (bytes : list byte) : option (list byte) :=
  let index := indexOf (decode bytes) separator in
  if index =? -1 then None
  else Some (drop (Z.to_nat (index + Z.of_nat (length separator))) bytes).

(** The header text of a chunk that holds the separator. *)
Definition headerText (bytes : list byte) : option jsstring :=
  let index := indexOf (decode bytes) separator in
  if index =? -1 then None
  else Some (substring0 (decode bytes) index).

(** What [deal] adds to [expectedLength] for a chunk. *)
Definition declared (bytes : list byte) : Z :=
  match headerText bytes ≫= exec_ci_digits content_length_key with
  | Some digits => parseInt10 digits
  | None => 0
  end.

(** The metadata a textual frame yields. *)
Definition parsed (t : jsstring) : option AudioMetadata :=
  metadata_payload t ≫= JSON_parse.

(** A run of [dealRawAudioChunks] that no other run interleaves with:
    every queued chunk in turn. *)
Definition drained (s : session) : session :=
  fold_left (fun s bytes => deal bytes s) (rawAudioChunks s)
    (with_rawAudioChunks [] s).

(** The events of such a run for a termination frame [t]: the frame, then
    the bytes of each queued chunk. *)
Definition finalization (t : jsstring) (s : session) : list event :=
  Message (Text t) :: replicate (length (rawAudioChunks s)) (Bytes 0).

(** Frames of the streaming phase: binary frames and metadata frames. *)
Definition streaming (d : data) : Prop :=
  match d with
  | Binary _ => True
  | Text t => includes t metadata_marker = true
  end.

Definition binaries (fs : list data) : list (list byte) :=
  omap (fun d => match d with Binary b => Some b | Text _ => None end) fs.

Definition texts (fs : list data) : list jsstring :=
  omap (fun d => match d with Text t => Some t | Binary _ => None end) fs.

(** The metadata the textual frames yield, in their order. *)
Definition metadata (fs : list data) : list AudioMetadata :=
  omap parsed (texts fs).

(** The error of the first metadata frame that the listener cannot read. *)
Fixpoint first_failure (ts : list jsstring) : option error :=
  match ts with
  | [] => None
  | t :: ts' =>
      match metadata_payload t with
      | Some jsonString =>
          match JSON_parse jsonString with
          | Some _ => first_failure ts'
          | None => Some (SyntaxError jsonString)
          end
      | None => Some TypeError
      end
  end.

(** The sum of what the chunks declare. *)
Definition declared_total (q : list (list byte)) : Z :=
  foldr Z.add 0 (declared <$> q).

(** What a session of streaming frames [fs] and then a termination frame
    settles with, when nothing else happens in between. *)
Definition outcome (subtitle_opts : object) (fs : list data)
  : Platform.promise GenerateResult error :=
  let chunks := omap fragment (binaries fs) in
  let L := declared_total (binaries fs) in
  let n := Z.of_nat (length (concat chunks)) in
  match first_failure (texts fs) with
  | Some e => Rejected e
  | None =>
      if (0 <? L) && (n <? L) then Rejected (IncompleteAudio n L)
      else Fulfilled
             {| audio := blob_of chunks (str "audio/mp3");
                subtitles := parseSubtitle (metadata fs) subtitle_opts |}
  end.

(** *** The frames that end a session, and the rest *)

(** A termination frame: a textual frame that the listener takes to its
    [turn.end] branch. *)
Definition termination (t : jsstring) : Prop :=
  includes t metadata_marker = false /\ includes t turn_end_marker = true.

(** Every event but a termination frame. *)
Definition quiet (e : event) : Prop :=
  match e with
  | Message (Text t) => ~ termination t
  | _ => True
  end.

(** The binary frames among the events, in their order. *)
Definition queued (es : list event) : list (list byte) :=
  omap (fun e => match e with Message (Binary b) => Some b | _ => None end) es.

(** [const socket = await connect(outputFormat)] and what follows it
    (lines 105 to 223), when [generate] is resumed with [connect]'s promise
    in the state it has in [c]: still waiting, rejected with [connect]'s
    error, or started on [connect]'s socket. *)
Definition resume (requestId : jsstring) (options : GenerateOptions)
    (st : settings) (c : Connect.connection) : option (error + session) :=
  match Connect.promise c with
  | Pending => None
  | Rejected e => Some (inl e)
  | Fulfilled _ => Some (inr (start requestId options st (Connect.ws c)))
  end.

End Generate.

End Generate.

(** ** The wire format in the words of the specification *)
Module Wire.

Import JS Utf8.

(** Equality of two strings up to the case of ASCII letters. *)
Definition ci_equal (a b : jsstring) : Prop :=
  map canonicalize a = map canonicalize b.

(** [header] holds, right after [pre], a Content-Length field with the
    digits [ds]: the key in any letter case, a colon and a space, and the
    whole run of digits that follows. *)
Definition field_at (pre header ds : jsstring) : Prop :=
  exists key rest,
    header = pre ++ key ++ ds ++ rest
    /\ ci_equal key (str "Content-Length: ")
    /\ ds <> []
    /\ Forall (fun c => is_digit c = true) ds
    /\ (forall c rest', rest = c :: rest' -> is_digit c = false).

Definition has_field (header : jsstring) : Prop :=
  exists pre ds, field_at pre header ds.

(** [ds] are the digits of the leftmost Content-Length field. *)
Definition first_field (header ds : jsstring) : Prop :=
  exists pre,
    field_at pre header ds
    /\ forall pre' ds', field_at pre' header ds' -> (length pre <= length pre')%nat.

(** The integer a string of decimal digits denotes. *)
Fixpoint decimal_value (ds : jsstring) : Z :=
  match ds with
  | [] => 0
  | c :: ds' => (c - 48) * 10 ^ Z.of_nat (length ds') + decimal_value ds'
  end.

(** A byte of the ASCII range. *)
Definition is_ascii (b : byte) : Prop := byte_val b <= 127.

(** The separator token as bytes. *)
Definition separator_bytes : list byte :=
  ascii_bytes "Path:audio" ++ [Byte.x0d; Byte.x0a].

Fixpoint is_prefix (pat bs : list byte) : bool :=
  match pat, bs with
  | [], _ => true
  | p :: pat', b :: bs' => Byte.eqb p b && is_prefix pat' bs'
  | _ :: _, [] => false
  end.

(** The bytes after the first occurrence of [pat] in [bs]. *)
Fixpoint bytes_after (pat bs : list byte) : option (list byte) :=
  if is_prefix pat bs then Some (drop (length pat) bs)
  else match bs with
       | [] => None
       | _ :: bs' => bytes_after pat bs'
       end.

(** The payload section of a binary frame: the bytes after the separator. *)
Definition payload (frame : list byte) : option (list byte) :=
  bytes_after separator_bytes frame.

(** A binary frame as the wire format describes it: a header of ASCII
    text, the separator, the audio. *)
Definition well_formed (frame : list byte) : Prop :=
  exists header audio,
    frame = header ++ separator_bytes ++ audio /\ Forall is_ascii header.

(** *** The Content-Length text, code unit by code unit *)

(** The same code unit, or the two cases of one ASCII letter. *)
Definition same_letter (a b : code_unit) : Prop :=
  a = b \/ (65 <= a <= 90 /\ b = a + 32) \/ (97 <= a <= 122 /\ b = a - 32).

(** [key] spells [Content-Length], a colon and one space, each letter in
    either case. *)
Definition spells_key (key : jsstring) : Prop :=
  Forall2 same_letter (str "Content-Length: ") key.

(** A decimal digit. *)
Definition digit (c : code_unit) : Prop := 48 <= c <= 57.

(** [header] holds, right after [pre], the key and at least one digit. *)
Definition occurrence (pre header : jsstring) : Prop :=
  exists key d post,
    header = pre ++ key ++ d :: post /\ spells_key key /\ digit d.

(** The separator token as text. *)
Definition separator_text : jsstring := str "Path:audio" ++ [13; 10].

(** *** The header block in the specification's words

    Lines [Key:Value] separated by CRLF, each split at its first colon. *)

(** The key of a line: the text before its first colon. *)
Fixpoint line_key (line : jsstring) : jsstring :=
  match line with
  | [] => []
  | c :: line' => if c =? 58 then [] else c :: line_key line'
  end.

(** The lower case of an ASCII letter. *)
Definition lower (c : code_unit) : code_unit :=
  if (65 <=? c) && (c <=? 90) then c + 32 else c.

(** A line whose key is [Content-Length] in any letter case. *)
Definition content_length_line (line : jsstring) : bool :=
  bool_decide (map lower (line_key line) = str "content-length").

(** The header block has a Content-Length field. *)
Definition advertises_content_length (header : jsstring) : bool :=
  existsb content_length_line (split header [13; 10]).

End Wire.

(** ** A concrete platform, to run the model on *)
Module Demo.

Import JS Utf8 Platform.

(** Metadata is kept as its JSON text, which parses when it opens with a
    brace; the cues are counted. *)
#[export] Instance collaborators : Collaborators := {|
  Event := unit;
  AudioMetadata := jsstring;
  Subtitle := nat;
  JSON_parse := fun t => match t with 123 :: _ => Some t | _ => None end;
  parseSubtitle := fun metadata _ => length metadata;
|}.

Definition options : Generate.GenerateOptions :=
  {| Generate.text := str "Hi";
     Generate.voice := Undefined;
     Generate.language := Undefined;
     Generate.outputFormat := Undefined;
     Generate.rate := Undefined;
     Generate.pitch := Undefined;
     Generate.volume := Undefined;
     Generate.subtitle := Undefined |}.

(** The socket once [connect]'s open listener has run. *)
Definition opened : WebSocket :=
  match Connect.connect (Value (str "audio-24khz-96kbitrate-mono-mp3")) with
  | inr c => Connect.ws (Connect.step Connect.Open c)
  | inl _ => ws_new []
  end.

(** What [connect] returns for the default output format. *)
Definition connecting : Connect.connection :=
  {| Connect.ws := ws_new Connect.endpoint;
     Connect.message :=
       Connect.initialMessage (str "audio-24khz-96kbitrate-mono-mp3");
     Connect.promise := Pending;
     Connect.timeout := Armed |}.

Definition session0 : Generate.session :=
  Generate.start (str "0") options (Generate.settings_of options) opened.

Definition bytes_of (l : list Z) : list byte :=
  omap (fun z => Byte.of_N (Z.to_N z)) l.

Definition turn_end : Generate.data :=
  Generate.Text (str "Path:turn.end").

(** The caller passes an empty subtitle object. *)
Definition options_empty_subtitle : Generate.GenerateOptions :=
  {| Generate.text := str "Hi";
     Generate.voice := Undefined;
     Generate.language := Undefined;
     Generate.outputFormat := Undefined;
     Generate.rate := Undefined;
     Generate.pitch := Undefined;
     Generate.volume := Undefined;
     Generate.subtitle := Value ∅ |}.

(** The caller passes [{splitBy: undefined}]. *)
Definition options_undefined_splitBy : Generate.GenerateOptions :=
  {| Generate.text := str "Hi";
     Generate.voice := Undefined;
     Generate.language := Undefined;
     Generate.outputFormat := Undefined;
     Generate.rate := Undefined;
     Generate.pitch := Undefined;
     Generate.volume := Undefined;
     Generate.subtitle := Value {[ "splitBy"%string := VUndefined ]} |}.

(** A frame whose only header line has the key [X-Content-Length]. *)
Definition frame_foreign_key : list byte :=
  ascii_bytes "X-Content-Length: 5" ++ [Byte.x0d; Byte.x0a]
  ++ Wire.separator_bytes ++ bytes_of [1; 2; 3].

(** A frame whose Content-Length key mixes the letter cases, with the same
    text once more among the audio bytes. *)
Definition frame_mixed_case : list byte :=
  ascii_bytes "content-LENGTH: 4" ++ [Byte.x0d; Byte.x0a]
  ++ Wire.separator_bytes ++ ascii_bytes "Content-Length: 9".

(** The scenario of the specification: one binary frame that declares and
    carries four bytes. *)
Definition frame4 : list byte :=
  ascii_bytes "Content-Length: 4" ++ [Byte.x0d; Byte.x0a]
  ++ Wire.separator_bytes ++ bytes_of [1; 2; 3; 4].

(** A frame that declares ten bytes and carries four. *)
Definition frame_short : list byte :=
  ascii_bytes "Content-Length: 10" ++ [Byte.x0d; Byte.x0a]
  ++ Wire.separator_bytes ++ bytes_of [1; 2; 3; 4].

(** A frame with a header whose value holds a letter that UTF-8 encodes
    in two bytes. *)
Definition frame_accent : list byte :=
  ascii_bytes "X-Name:" ++ [Byte.xc3; Byte.xa9; Byte.x0d; Byte.x0a]
  ++ Wire.separator_bytes ++ bytes_of [1; 2; 3].

(** A frame as the service sends them: two bytes that give the length of
    the header, the header lines, the separator, the audio. The second
    length byte is no valid UTF-8 and decodes to one replacement
    character. *)
Definition frame_prefixed : list byte :=
  [Byte.x00; Byte.x80] ++ ascii_bytes "X-RequestId:0" ++ [Byte.x0d; Byte.x0a]
  ++ ascii_bytes "Content-Type:audio/mpeg" ++ [Byte.x0d; Byte.x0a]
  ++ Wire.separator_bytes ++ bytes_of [255; 243; 100; 196].

Definition metadata_frame : Generate.data :=
  Generate.Text (str "X-RequestId:0" ++ CRLF ++ str "Path:audio.metadata" ++ CRLF
                 ++ CRLF ++ str "{}").

Definition bad_metadata_frame : Generate.data :=
  Generate.Text (str "Path:audio.metadata" ++ CRLF ++ CRLF ++ str "oops").

End Demo.

Import JS Utf8 Platform Generate.

(** The two tests of [deal]: is the separator there, and does the header
    declare a length. *)
Ltac deal_cases :=
  unfold deal; destruct (_ =? _); [done|];
  by destruct (exec_ci_digits _ _).

(** ** Facts about the string functions *)
Section Strings.

Lemma indexOf_includes (s pat : jsstring) :
  indexOf s pat = -1 <-> includes s pat = false.
Proof.
  unfold indexOf, includes. destruct (find pat s) as [i|].
  - split; [lia|]. intros Hf. apply bool_decide_eq_false in Hf.
    exfalso. apply Hf. eauto.
  - split; [|done]. intros _. apply bool_decide_eq_false.
    intros [x Hx]. discriminate.
Qed.

Lemma indexOf_missing (s pat : jsstring) :
  includes s pat = false -> (indexOf s pat =? -1) = true.
Proof. intros Hi. apply Z.eqb_eq. by apply indexOf_includes. Qed.

Lemma split_go_cons (pat : jsstring) (skip : nat) (cur s : jsstring) :
  exists x l, split_go pat skip cur s = x :: l.
Proof.
  revert skip cur. induction s as [|c s IH]; intros skip cur; simpl.
  - eauto.
  - destruct skip as [|k]; [|apply IH].
    destruct (starts_with pat (c :: s)); [eauto|apply IH].
Qed.

Lemma find_split_go (pat : jsstring) (s cur : jsstring) :
  pat <> [] -> is_Some (find pat s) -> is_Some (split_go pat 0 cur s !! 1%nat).
Proof.
  intros Hpat. revert cur. induction s as [|c s IH]; intros cur Hf.
  - exfalso. destruct pat as [|p pat]; [done|]. simpl in Hf.
    destruct Hf as [x Hx]. discriminate.
  - cbn [split_go]. cbn [find] in Hf.
    destruct (starts_with pat (c :: s)).
    + destruct (split_go_cons pat (length pat - 1) [] s) as (x & l & ->).
      simpl. eauto.
    + apply IH. destruct (find pat s); [eauto|].
      destruct Hf as [x Hx]. discriminate.
Qed.

(** A string that includes the metadata marker has a payload piece. *)
Lemma includes_metadata_payload (t : jsstring) :
  includes t metadata_marker = true -> is_Some (metadata_payload t).
Proof.
  intros Hi. unfold includes in Hi. apply bool_decide_eq_true in Hi.
  unfold metadata_payload, split.
  destruct (find_split_go metadata_marker t []) as [x Hx]; [done|done|].
  rewrite Hx. simpl. eauto.
Qed.

Lemma starts_with_spec (pat s : jsstring) :
  starts_with pat s = true <-> exists rest, s = pat ++ rest.
Proof.
  revert s. induction pat as [|p pat IH]; intros s; simpl.
  - split; eauto.
  - destruct s as [|c s].
    + split; [done|]. intros [rest Hr]. discriminate.
    + rewrite andb_true_iff, Z.eqb_eq, IH. split.
      * intros [-> [rest ->]]. eauto.
      * intros [rest Hr]. injection Hr as -> ->. eauto.
Qed.

(** [find] yields the length of the shortest text before an occurrence. *)
Lemma find_spec (pat s : jsstring) (i : nat) :
  find pat s = Some i ->
  exists rest, s = take i s ++ pat ++ rest
    /\ forall pre rest', s = pre ++ pat ++ rest' -> (i <= length pre)%nat.
Proof.
  revert i. induction s as [|c s IH]; intros i; cbn [find].
  - destruct (starts_with pat []) eqn:Hs; [|done].
    intros [= <-]. apply starts_with_spec in Hs as [rest Hr].
    exists rest. split; [done|]. intros; lia.
  - destruct (starts_with pat (c :: s)) eqn:Hs.
    + intros [= <-]. apply starts_with_spec in Hs as [rest Hr].
      exists rest. split; [done|]. intros; lia.
    + destruct (find pat s) as [j|] eqn:Hf; [|done].
      intros [= <-]. destruct (IH j eq_refl) as (rest & Hr & Hmin).
      exists rest. split; [simpl; by rewrite <- Hr|].
      intros [|c' pre] rest' Hpre.
      * simpl in Hpre. assert (starts_with pat (c :: s) = true); [|congruence].
        apply starts_with_spec. eauto.
      * injection Hpre as -> Hpre. apply Hmin in Hpre. simpl. lia.
Qed.

Lemma find_None (pat s pre rest : jsstring) :
  find pat s = None -> s <> pre ++ pat ++ rest.
Proof.
  revert pre. induction s as [|c s IH]; intros pre; cbn [find].
  - destruct (starts_with pat []) eqn:Hs; [done|]. intros _ Heq.
    assert (starts_with pat [] = true); [|congruence].
    apply starts_with_spec. destruct pre; [|done]. eauto.
  - destruct (starts_with pat (c :: s)) eqn:Hs; [done|].
    destruct (find pat s) eqn:Hf; [done|]. intros _ Heq.
    destruct pre as [|c' pre].
    + assert (starts_with pat (c :: s) = true); [|congruence].
      apply starts_with_spec. eauto.
    + injection Heq as -> Heq. by apply (IH pre eq_refl).
Qed.

(** *** The regular expression against the wire format's field *)

Lemma match_ci_spec (pat s rest : jsstring) :
  match_ci pat s = Some rest
  <-> exists key, s = key ++ rest /\ Wire.ci_equal key pat.
Proof.
  unfold Wire.ci_equal. revert s.
  induction pat as [|p pat IH]; intros s.
  - simpl. split.
    + intros [= ->]. by exists [].
    + intros (key & -> & Hk). by destruct key.
  - destruct s as [|c s]; simpl.
    + split; [done|]. intros (key & Hs & Hk). by destruct key.
    + destruct (canonicalize p =? canonicalize c) eqn:Hc.
      * apply Z.eqb_eq in Hc. rewrite IH. split.
        -- intros (key & -> & Hk). exists (c :: key). split; [done|].
           simpl. by rewrite Hk, Hc.
        -- intros (key & Hs & Hk). destruct key as [|k key]; [done|].
           injection Hs as -> ->. injection Hk as _ Hk. eauto.
      * apply Z.eqb_neq in Hc. split; [done|].
        intros (key & Hs & Hk). destruct key as [|k key]; [done|].
        injection Hs as -> ->. injection Hk as Hk _. congruence.
Qed.

Lemma digits_prefix_spec (s : jsstring) :
  exists rest, s = digits_prefix s ++ rest
    /\ Forall (fun c => is_digit c = true) (digits_prefix s)
    /\ (forall c rest', rest = c :: rest' -> is_digit c = false).
Proof.
  induction s as [|c s (rest & Hs & Hd & Hr)]; simpl.
  - exists []. by repeat split.
  - destruct (is_digit c) eqn:Hc.
    + exists rest. split; [simpl; congruence|]. split; [by constructor|done].
    + exists (c :: s). split; [done|]. split; [constructor|].
      by intros c' rest' [= <- <-].
Qed.

Lemma digits_prefix_unique (ds rest : jsstring) :
  Forall (fun c => is_digit c = true) ds ->
  (forall c rest', rest = c :: rest' -> is_digit c = false) ->
  digits_prefix (ds ++ rest) = ds.
Proof.
  intros Hd Hr. induction Hd as [|c ds Hc _ IH]; simpl.
  - destruct rest as [|c rest]; [done|]. simpl. by rewrite (Hr c rest).
  - by rewrite Hc, IH.
Qed.

Lemma match_here_field (s ds : jsstring) :
  match_here content_length_key s = Some ds <-> Wire.field_at [] s ds.
Proof.
  unfold match_here, Wire.field_at. split.
  - destruct (match_ci content_length_key s) as [rest|] eqn:Hm; [|done].
    apply match_ci_spec in Hm as (key & -> & Hk).
    destruct (digits_prefix_spec rest) as (rest' & Hs & Hd & Hr).
    destruct (digits_prefix rest) as [|d ds'] eqn:Hp; [done|].
    intros [= <-]. exists key, rest'. simpl. rewrite Hs. done.
  - intros (key & rest & Hs & Hk & Hne & Hd & Hr). simpl in Hs. subst s.
    assert (Hm : match_ci content_length_key (key ++ ds ++ rest)
                 = Some (ds ++ rest)) by (apply match_ci_spec; eauto).
    rewrite Hm, digits_prefix_unique by done. by destruct ds.
Qed.

Lemma exec_first_field (s ds : jsstring) :
  exec_ci_digits content_length_key s = Some ds -> Wire.first_field s ds.
Proof.
  revert ds. induction s as [|c s IH]; intros ds; cbn [exec_ci_digits].
  - destruct (match_here content_length_key []) as [ds'|] eqn:Hm; [|done].
    intros [= ->]. apply match_here_field in Hm.
    exists []. split; [done|]. intros; simpl; lia.
  - destruct (match_here content_length_key (c :: s)) as [ds'|] eqn:Hm.
    + intros [= ->]. apply match_here_field in Hm.
      exists []. split; [done|]. intros; simpl; lia.
    + intros He. destruct (IH ds He) as (pre & Hf & Hmin).
      exists (c :: pre). split.
      * destruct Hf as (key & rest & -> & Hrest). by exists key, rest.
      * intros [|c' pre'] ds' Hf'.
        -- apply match_here_field in Hf'. congruence.
        -- destruct Hf' as (key & rest & Hs & Hrest). injection Hs as -> Hs.
           assert (Hle : (length pre <= length pre')%nat).
           { apply (Hmin pre' ds'). by exists key, rest. }
           simpl. lia.
Qed.

Lemma exec_no_field (s : jsstring) :
  exec_ci_digits content_length_key s = None -> ~ Wire.has_field s.
Proof.
  induction s as [|c s IH]; cbn [exec_ci_digits].
  - destruct (match_here content_length_key []) eqn:Hm; [done|].
    intros _ (pre & ds & Hf). destruct pre as [|c pre].
    + apply match_here_field in Hf. congruence.
    + destruct Hf as (key & rest & Hs & _). discriminate.
  - destruct (match_here content_length_key (c :: s)) eqn:Hm; [done|].
    intros He (pre & ds & Hf). destruct pre as [|c' pre].
    + apply match_here_field in Hf. congruence.
    + apply (IH He). exists pre, ds.
      destruct Hf as (key & rest & Hs & Hrest). injection Hs as -> Hs.
      by exists key, rest.
Qed.

(** The fields at one position carry the same digits. *)
Lemma field_at_unique (pre pre' s ds ds' : jsstring) :
  length pre = length pre' ->
  Wire.field_at pre s ds -> Wire.field_at pre' s ds' -> ds = ds'.
Proof.
  intros Hlen (key & rest & Hs & Hk & _ & Hd & Hr)
    (key' & rest' & Hs' & Hk' & _ & Hd' & Hr').
  rewrite Hs in Hs'. apply app_inj_1 in Hs' as [_ Hs']; [|done].
  apply app_inj_1 in Hs' as [_ Hs'].
  - rewrite <- (digits_prefix_unique ds rest), <- (digits_prefix_unique ds' rest')
      by done. by rewrite Hs'.
  - unfold Wire.ci_equal in Hk, Hk'.
    apply (f_equal length) in Hk, Hk'. rewrite !length_map in Hk, Hk'.
    congruence.
Qed.

Lemma first_field_exec (s ds : jsstring) :
  Wire.first_field s ds -> exec_ci_digits content_length_key s = Some ds.
Proof.
  intros (pre & Hf & Hmin).
  destruct (exec_ci_digits content_length_key s) as [ds'|] eqn:He.
  - apply exec_first_field in He as (pre' & Hf' & Hmin'). f_equal.
    apply (field_at_unique pre' pre s); [|done|done].
    apply Nat.le_antisymm; eauto.
  - exfalso. apply (exec_no_field s He). by exists pre, ds.
Qed.

Lemma parseInt10_from (ds : jsstring) (acc : Z) :
  fold_left (fun acc c => 10 * acc + (c - 48)) ds acc
  = acc * 10 ^ Z.of_nat (length ds) + Wire.decimal_value ds.
Proof.
  revert acc. induction ds as [|c ds IH]; intros acc; simpl length.
  - simpl. lia.
  - cbn [fold_left Wire.decimal_value]. rewrite IH.
    rewrite Nat2Z.inj_succ, Z.pow_succ_r by lia. ring.
Qed.

(** [parseInt] reads the digits as a decimal numeral. *)
Lemma parseInt10_decimal (ds : jsstring) :
  parseInt10 ds = Wire.decimal_value ds.
Proof. unfold parseInt10. rewrite parseInt10_from. lia. Qed.

(** *** Decoding ASCII bytes *)

Lemma byte_val_inj (x y : byte) : byte_val x = byte_val y -> x = y.
Proof.
  unfold byte_val. intros Hxy. apply N2Z.inj in Hxy.
  pose proof (Byte.of_to_N x) as Hx. rewrite Hxy, Byte.of_to_N in Hx.
  congruence.
Qed.

Lemma byte_val_eqb (x y : byte) : (byte_val x =? byte_val y) = Byte.eqb x y.
Proof.
  destruct (Byte.eqb x y) eqn:Hxy.
  - apply Byte.byte_dec_bl in Hxy as ->. apply Z.eqb_refl.
  - apply Z.eqb_neq. intros Hv. apply byte_val_inj in Hv.
    apply Byte.byte_dec_lb in Hv. congruence.
Qed.

Lemma starts_with_bytes (p a : list byte) :
  starts_with (byte_val <$> p) (byte_val <$> a) = Wire.is_prefix p a.
Proof.
  revert a. induction p as [|x p IH]; intros [|y a]; try done.
  rewrite !fmap_cons. cbn [starts_with Wire.is_prefix].
  by rewrite byte_val_eqb, IH.
Qed.

Lemma starts_with_app (pat a t : jsstring) :
  (length pat <= length a)%nat ->
  starts_with pat (a ++ t) = starts_with pat a.
Proof.
  revert a. induction pat as [|p pat IH]; intros [|c a] Hlen; simpl in *;
    try done; try lia.
  rewrite IH; [done|lia].
Qed.

Lemma is_prefix_app (pat a t : list byte) :
  (length pat <= length a)%nat ->
  Wire.is_prefix pat (a ++ t) = Wire.is_prefix pat a.
Proof.
  revert a. induction pat as [|p pat IH]; intros [|c a] Hlen; simpl in *;
    try done; try lia.
  rewrite IH; [done|lia].
Qed.

Lemma separator_of_bytes : byte_val <$> Wire.separator_bytes = separator.
Proof. done. Qed.

Lemma code_points_ascii (a rest : list byte) :
  Forall Wire.is_ascii a ->
  code_points Start (a ++ rest) = (byte_val <$> a) ++ code_points Start rest.
Proof.
  induction 1 as [|b a Hb _ IH]; [done|].
  rewrite fmap_cons. cbn [app code_points dstep]. unfold lead.
  unfold Wire.is_ascii in Hb. apply Z.leb_le in Hb. rewrite Hb.
  simpl. by rewrite IH.
Qed.

Lemma utf16_ascii (a : list byte) (cps : list Z) :
  Forall Wire.is_ascii a ->
  concat (utf16 <$> ((byte_val <$> a) ++ cps))
  = (byte_val <$> a) ++ concat (utf16 <$> cps).
Proof.
  induction 1 as [|b a Hb _ IH]; [done|].
  rewrite !fmap_cons. cbn [app]. rewrite fmap_cons. cbn [concat].
  rewrite IH. unfold utf16. unfold Wire.is_ascii in Hb.
  assert (Hlt : (byte_val b <? 65536) = true) by (apply Z.ltb_lt; lia).
  by rewrite Hlt.
Qed.

(** A frame that begins with ASCII bytes decodes to those bytes, then
    the decoding of what follows. *)
Lemma decode_ascii_prefix (a rest : list byte) :
  a <> [] -> Forall Wire.is_ascii a ->
  decode (a ++ rest)
  = (byte_val <$> a) ++ concat (utf16 <$> code_points Start rest).
Proof.
  intros Hne Ha. unfold decode. rewrite code_points_ascii by done.
  destruct a as [|b a]; [done|].
  rewrite fmap_cons. cbn [app strip_bom].
  assert (Hb : (byte_val b =? 65279) = false).
  { apply Z.eqb_neq. apply Forall_cons in Ha as [Hb _].
    unfold Wire.is_ascii in Hb. lia. }
  rewrite Hb. by apply (utf16_ascii (b :: a)).
Qed.

(** Behind an ASCII header, the separator is found in the decoded text
    at the offset it has in the bytes. *)
Lemma find_separator_ascii (pre rest : list byte) (tail : jsstring) :
  exists i,
    find separator ((byte_val <$> pre) ++ separator ++ tail) = Some i
    /\ Wire.payload (pre ++ Wire.separator_bytes ++ rest)
       = Some (drop (i + length separator) (pre ++ Wire.separator_bytes ++ rest)).
Proof.
  unfold Wire.payload. induction pre as [|b pre (i & Hf & Hp)].
  - exists 0%nat. split; done.
  - assert (Hsame :
      starts_with separator
        (byte_val b :: (byte_val <$> pre) ++ separator ++ tail)
      = Wire.is_prefix Wire.separator_bytes
          (b :: pre ++ Wire.separator_bytes ++ rest)).
    { change (starts_with separator
                ((byte_val <$> (b :: pre)) ++ separator ++ tail)
              = Wire.is_prefix Wire.separator_bytes
                  ((b :: pre) ++ Wire.separator_bytes ++ rest)).
      rewrite <- separator_of_bytes at 2. rewrite !app_assoc.
      rewrite <- fmap_app, starts_with_app, is_prefix_app.
      - rewrite <- separator_of_bytes. apply starts_with_bytes.
      - rewrite length_app. simpl. lia.
      - rewrite length_fmap, length_app. simpl. lia. }
    change (exists i0,
      find separator (byte_val b :: (byte_val <$> pre) ++ separator ++ tail)
        = Some i0
      /\ Wire.bytes_after Wire.separator_bytes
           (b :: pre ++ Wire.separator_bytes ++ rest)
         = Some (drop (i0 + length separator)
                   (b :: pre ++ Wire.separator_bytes ++ rest))).
    cbn [find Wire.bytes_after]. rewrite Hsame.
    destruct (Wire.is_prefix _ _).
    + exists 0%nat. done.
    + rewrite Hf. exists (S i). done.
Qed.

End Strings.

(** ** Properties of the session *)
Section Session.
Context `{Collaborators}.

Implicit Types (s : session) (e : event) (es : list event).

(** *** What [deal], [finish] and [drain] leave alone *)

Lemma deal_promise bytes s : promise (deal bytes s) = promise s.
Proof. deal_cases. Qed.

Lemma deal_timeout bytes s : timeout (deal bytes s) = timeout s.
Proof. deal_cases. Qed.

Lemma deal_socket bytes s : socket (deal bytes s) = socket s.
Proof. deal_cases. Qed.

Lemma deal_isAudioComplete bytes s :
  isAudioComplete (deal bytes s) = isAudioComplete s.
Proof. deal_cases. Qed.

Lemma finish_settled s :
  settled (promise s) = true -> promise (finish s) = promise s.
Proof.
  unfold finish. intros Hs.
  destruct (_ && _); simpl; by destruct (promise s).
Qed.

Lemma drain_settled s :
  settled (promise s) = true -> promise (drain s) = promise s.
Proof.
  unfold drain. intros Hs.
  destruct (rawAudioChunks s); [by apply finish_settled|done].
Qed.

Lemma step_settled e s :
  settled (promise s) = true -> promise (step e s) = promise s.
Proof.
  intros Hs. destruct e as [[t|b]|code reason|ev| |k]; simpl.
  - destruct (includes t metadata_marker).
    + destruct (metadata_payload t) as [j|]; simpl; [|by destruct (promise s)].
      destruct (JSON_parse j); simpl; [done|by destruct (promise s)].
    + destruct (includes t turn_end_marker); [by apply drain_settled|done].
  - done.
  - destruct (isAudioComplete s); simpl; [done|by destruct (promise s)].
  - by destruct (promise s).
  - destruct (timeout s); simpl; [by destruct (promise s)|done|done].
  - destruct (suspended s !! k) as [bytes|]; [|done].
    rewrite drain_settled; rewrite deal_promise; done.
Qed.

Lemma run_settled es s :
  settled (promise s) = true -> promise (run es s) = promise s.
Proof.
  revert s. induction es as [|e es IH]; intros s Hs; [done|].
  cbn [run fold_left]. fold (run es (step e s)).
  rewrite IH; rewrite step_settled; done.
Qed.

Lemma deal_rawAudioChunks bytes s :
  rawAudioChunks (deal bytes s) = rawAudioChunks s.
Proof. deal_cases. Qed.

Lemma deal_suspended bytes s : suspended (deal bytes s) = suspended s.
Proof. deal_cases. Qed.

Lemma deal_subtitleChunks bytes s :
  subtitleChunks (deal bytes s) = subtitleChunks s.
Proof. deal_cases. Qed.

Lemma deal_subtitle_options bytes s :
  subtitle_options (deal bytes s) = subtitle_options s.
Proof. deal_cases. Qed.

(** [deal] appends the chunk's fragment and adds what its header declares. *)
Lemma deal_audioChunks bytes s :
  audioChunks (deal bytes s) = audioChunks s ++ option_list (fragment bytes).
Proof.
  unfold deal, fragment. destruct (_ =? _); simpl.
  - by rewrite app_nil_r.
  - by destruct (exec_ci_digits _ _).
Qed.

Lemma deal_expectedLength bytes s :
  expectedLength (deal bytes s) = expectedLength s + declared bytes.
Proof.
  unfold deal, declared, headerText. destruct (_ =? _); simpl.
  - lia.
  - destruct (exec_ci_digits _ _); simpl; lia.
Qed.

Lemma deal_with_rawAudioChunks v bytes s :
  deal bytes (with_rawAudioChunks v s) = with_rawAudioChunks v (deal bytes s).
Proof. deal_cases. Qed.

Lemma headerText_None bytes :
  headerText bytes = None <-> includes (decode bytes) separator = false.
Proof.
  unfold headerText. rewrite <- indexOf_includes.
  destruct (_ =? _) eqn:Hi.
  - apply Z.eqb_eq in Hi. done.
  - apply Z.eqb_neq in Hi. split; [done|]. intros; contradiction.
Qed.

(** The header text is the shortest text before an occurrence of the
    separator in the decoded frame. *)
Lemma headerText_spec bytes header :
  headerText bytes = Some header ->
  exists rest, decode bytes = header ++ separator ++ rest
    /\ forall pre rest', decode bytes = pre ++ separator ++ rest' ->
         (length header <= length pre)%nat.
Proof.
  unfold headerText, indexOf, substring0.
  destruct (find separator (decode bytes)) as [i|] eqn:Hf; [|done].
  destruct (_ =? _); [done|]. intros [= <-].
  destruct (find_spec _ _ _ Hf) as (rest & Hd & Hmin).
  rewrite Nat2Z.id. exists rest. split; [done|].
  intros pre rest' Hpre. rewrite length_take. specialize (Hmin _ _ Hpre). lia.
Qed.

(** *** The drain that a termination frame starts *)

Lemma drained_nil s : rawAudioChunks s = [] -> drained s = s.
Proof.
  unfold drained. intros Hq. rewrite Hq. simpl.
  destruct s; simpl in *. by subst.
Qed.

Lemma run_cons e es s : run (e :: es) s = run es (step e s).
Proof. done. Qed.

(** The only suspended drain resumes with the bytes of its chunk. *)
Lemma resume_first bytes (q : list (list byte)) s :
  suspended s = [] ->
  step (Bytes 0) (with_suspended (suspended s ++ [bytes]) (with_rawAudioChunks q s))
  = drain (deal bytes (with_rawAudioChunks q s)).
Proof.
  intros Hsusp. cbn [step suspended with_suspended with_rawAudioChunks].
  rewrite Hsusp. cbn [app lookup list_lookup delete list_delete].
  do 2 f_equal. destruct s; simpl in *. by subst.
Qed.

Lemma drain_loop (q : list (list byte)) s :
  rawAudioChunks s = q -> suspended s = [] ->
  run (replicate (length q) (Bytes 0)) (drain s) = finish (drained s).
Proof.
  revert s. induction q as [|bytes q IH]; intros s Hq Hsusp.
  - unfold drain. rewrite Hq. simpl. by rewrite drained_nil.
  - assert (Hd : drain s = with_suspended (suspended s ++ [bytes])
                             (with_rawAudioChunks q s)).
    { unfold drain. by rewrite Hq. }
    rewrite Hd. cbn [length replicate]. rewrite run_cons, resume_first by done.
    rewrite IH.
    + f_equal. unfold drained. rewrite Hq, deal_rawAudioChunks. simpl.
      f_equal. rewrite <- deal_with_rawAudioChunks. f_equal.
    + by rewrite deal_rawAudioChunks.
    + by rewrite deal_suspended.
Qed.

(** A termination frame that reaches a session with no drain under way
    runs the drain over the queue and then the validation. *)
Lemma finalization_finish s t :
  includes t metadata_marker = false ->
  includes t turn_end_marker = true ->
  suspended s = [] ->
  run (finalization t s) s = finish (drained s).
Proof.
  intros Hm Ht Hsusp. unfold finalization.
  cbn [run fold_left step on_message]. rewrite Hm, Ht.
  by apply drain_loop.
Qed.

Lemma finish_outcome s :
  promise s = Pending ->
  promise (finish s)
  = if (0 <? expectedLength s) && (totalLength s <? expectedLength s)
    then Rejected (IncompleteAudio (totalLength s) (expectedLength s))
    else Fulfilled
           {| audio := blob_of (audioChunks s) (str "audio/mp3");
              subtitles := parseSubtitle (subtitleChunks s) (subtitle_options s) |}.
Proof.
  intros Hp. unfold finish. destruct (_ && _); simpl; by rewrite Hp.
Qed.

(** The branch that rejects for missing bytes touches nothing but the
    promise: the timer and the socket stay as they are. *)
Lemma finish_incomplete s :
  (0 <? expectedLength s) && (totalLength s <? expectedLength s) = true ->
  finish s = reject (IncompleteAudio (totalLength s) (expectedLength s)) s
  /\ timeout (finish s) = timeout s
  /\ socket (finish s) = socket s.
Proof. intros Hc. unfold finish. by rewrite Hc. Qed.

Lemma drained_promise s : promise (drained s) = promise s.
Proof.
  unfold drained.
  assert (Hfold : forall q s0,
    promise (fold_left (fun s1 bytes => deal bytes s1) q s0) = promise s0).
  { induction q as [|bytes q IH]; intros s0; [done|].
    simpl. by rewrite IH, deal_promise. }
  by rewrite Hfold.
Qed.

Lemma fold_deal_fields (q : list (list byte)) s :
  let s' := fold_left (fun s1 bytes => deal bytes s1) q s in
  audioChunks s' = audioChunks s ++ omap fragment q
  /\ expectedLength s' = expectedLength s + declared_total q
  /\ subtitleChunks s' = subtitleChunks s
  /\ subtitle_options s' = subtitle_options s.
Proof.
  cbv zeta. revert s. induction q as [|bytes q IH]; intros s.
  - unfold declared_total. simpl. rewrite app_nil_r. repeat split. lia.
  - cbn [fold_left]. destruct (IH (deal bytes s)) as (Ha & He & Hs & Ho).
    rewrite Ha, He, Hs, Ho.
    rewrite deal_audioChunks, deal_expectedLength, deal_subtitleChunks,
      deal_subtitle_options.
    unfold declared_total. cbn [omap list_omap fmap list_fmap foldr].
    repeat split; [|lia].
    destruct (fragment bytes); simpl; by rewrite <- app_assoc.
Qed.

Lemma drained_fields s :
  audioChunks (drained s) = audioChunks s ++ omap fragment (rawAudioChunks s)
  /\ expectedLength (drained s)
     = expectedLength s + declared_total (rawAudioChunks s)
  /\ subtitleChunks (drained s) = subtitleChunks s
  /\ subtitle_options (drained s) = subtitle_options s.
Proof. unfold drained. apply (fold_deal_fields _ (with_rawAudioChunks [] s)). Qed.

Lemma totalLength_concat s :
  totalLength s = Z.of_nat (length (concat (audioChunks s))).
Proof.
  unfold totalLength.
  assert (Hfold : forall chunks acc,
    fold_left (fun acc (chunk : list byte) => acc + Z.of_nat (length chunk))
      chunks acc
    = acc + Z.of_nat (length (concat chunks))).
  { induction chunks as [|c chunks IH]; intros acc; simpl; [lia|].
    rewrite IH, length_app. lia. }
  by rewrite Hfold.
Qed.

(** *** Streaming frames, whatever their interleaving *)

Lemma feed_fields (fs : list data) :
  Forall streaming fs ->
  forall s,
    let s' := run (Message <$> fs) s in
    rawAudioChunks s' = rawAudioChunks s ++ binaries fs
    /\ subtitleChunks s' = subtitleChunks s ++ metadata fs
    /\ audioChunks s' = audioChunks s
    /\ expectedLength s' = expectedLength s
    /\ suspended s' = suspended s
    /\ subtitle_options s' = subtitle_options s
    /\ promise s'
       = match first_failure (texts fs) with
         | Some err => reject_with err (promise s)
         | None => promise s
         end.
Proof.
  cbv zeta. induction 1 as [|f fs Hf _ IH]; intros s.
  - simpl. by rewrite !app_nil_r.
  - rewrite fmap_cons, run_cons.
    destruct (IH (step (Message f) s)) as (Hr & Hs & Ha & He & Hu & Ho & Hp).
    rewrite Hr, Hs, Ha, He, Hu, Ho, Hp. clear Hr Hs Ha He Hu Ho Hp IH.
    destruct f as [t|b]; cbn [step on_message].
    + simpl in Hf. rewrite Hf.
      unfold metadata, parsed.
      cbn [binaries texts omap list_omap first_failure].
      destruct (metadata_payload t) as [j|]; cbn [mbind option_bind].
      * destruct (JSON_parse j) as [json|]; simpl.
        -- rewrite <- app_assoc. done.
        -- repeat split. destruct (first_failure _); by destruct (promise s).
      * simpl. repeat split.
        destruct (first_failure _); by destruct (promise s).
    + unfold metadata. cbn [binaries texts omap list_omap]. simpl.
      rewrite <- app_assoc. done.
Qed.

(** *** The invariant that ties the flag and the timer to the promise *)

Lemma consistent_start requestId options st ws :
  consistent (start requestId options st ws).
Proof. split; simpl; [done|intros r Hr; discriminate]. Qed.

Lemma consistent_reject err s : consistent s -> consistent (reject err s).
Proof.
  intros [H1 H2]. split; simpl.
  - destruct (promise s); simpl; intros; discriminate.
  - intros r. destruct (promise s) eqn:Hp; simpl; intros Hr; try discriminate.
    by apply (H2 r).
Qed.

Lemma consistent_catch err s : consistent s -> consistent (catch err s).
Proof.
  intros [H1 H2]. split; simpl.
  - destruct (promise s); simpl; intros; discriminate.
  - intros r. destruct (promise s) eqn:Hp; simpl; intros Hr; try discriminate.
    by apply (H2 r).
Qed.

Lemma consistent_deal bytes s : consistent s -> consistent (deal bytes s).
Proof.
  unfold consistent.
  by rewrite deal_promise, deal_isAudioComplete, deal_timeout.
Qed.

Lemma consistent_finish s : consistent s -> consistent (finish s).
Proof.
  intros Hc. unfold finish.
  destruct (_ && _); [by apply consistent_reject|].
  split; simpl; [|done].
  destruct (promise s); simpl; intros; discriminate.
Qed.

Lemma consistent_drain s : consistent s -> consistent (drain s).
Proof.
  intros Hc. unfold drain.
  destruct (rawAudioChunks s); [by apply consistent_finish|done].
Qed.

Lemma consistent_step e s : consistent s -> consistent (step e s).
Proof.
  intros Hc. destruct e as [[t|b]|code reason|ev| |k]; simpl.
  - destruct (includes t metadata_marker).
    + destruct (metadata_payload t) as [j|]; [|by apply consistent_catch].
      destruct (JSON_parse j); [done|by apply consistent_catch].
    + destruct (includes t turn_end_marker); [by apply consistent_drain|done].
  - done.
  - destruct Hc as [H1 H2]. destruct (isAudioComplete s) eqn:Hflag; simpl.
    + split; simpl; [|done]. intros Hp. destruct (H1 Hp). congruence.
    + split; simpl.
      * destruct (promise s); simpl; intros; discriminate.
      * intros r. destruct (promise s) eqn:Hp; simpl; intros Hr;
          try discriminate. rewrite Hflag. by apply (H2 r).
  - destruct Hc as [H1 H2]. split; simpl.
    + destruct (promise s); simpl; intros; discriminate.
    + intros r. destruct (promise s) eqn:Hp; simpl; intros Hr;
        try discriminate. by apply (H2 r).
  - destruct (timeout s) eqn:Ht; [|done|done].
    destruct Hc as [H1 H2]. split; simpl.
    + destruct (promise s); simpl; intros; discriminate.
    + intros r. destruct (promise s) eqn:Hp; simpl; intros Hr;
        try discriminate. by apply (H2 r).
  - destruct (suspended s !! k) as [bytes|]; [|done].
    apply consistent_drain, consistent_deal. done.
Qed.

Lemma reachable_consistent s : reachable s -> consistent s.
Proof.
  induction 1 as [requestId options st ws|e s _ IH].
  - apply consistent_start.
  - by apply consistent_step.
Qed.

(** *** Claims about settlement *)

(** C1. Once the promise of a session is settled, no sequence of later
    events (frames, close, error, the deadline timer, chunk bytes) changes
    it: it is fulfilled or rejected once, by the first settlement. *)
Theorem single_settlement s es :
  promise s <> Pending -> promise (run es s) = promise s.
Proof.
  intros Hp. apply run_settled. by destruct (promise s).
Qed.

(** C7. A textual frame that carries the metadata marker and whose payload
    [JSON.parse] refuses rejects the promise with the parse error, and no
    later event undoes it: a pending session ends rejected with that
    error; whatever follows, no result is delivered. *)
Theorem malformed_metadata_is_fatal s t j es :
  includes t metadata_marker = true ->
  metadata_payload t = Some j ->
  JSON_parse j = None ->
  promise (run es (step (Message (Text t)) s))
    = reject_with (SyntaxError j) (promise s)
  /\ (promise s = Pending ->
      promise (run es (step (Message (Text t)) s)) = Rejected (SyntaxError j)).
Proof.
  intros Hi Hj Hparse.
  assert (Hstep : promise (step (Message (Text t)) s)
                  = reject_with (SyntaxError j) (promise s)).
  { simpl. by rewrite Hi, Hj, Hparse. }
  assert (Hrun : promise (run es (step (Message (Text t)) s))
                 = reject_with (SyntaxError j) (promise s)).
  { destruct (promise s) eqn:Hp.
    - rewrite run_settled; rewrite Hstep; done.
    - rewrite run_settled; rewrite Hstep; done.
    - rewrite run_settled; rewrite Hstep; done. }
  split; [done|]. intros Hp. by rewrite Hrun, Hp.
Qed.

(** C8. When the socket's close event reaches a session that has not
    completed, the session is failed: a pending promise is rejected with
    the unexpected-close error that carries the event's code and reason,
    and an earlier rejection stands. After completion the close event
    leaves the result as it is. *)
Theorem close_before_completion s code reason :
  reachable s ->
  (promise s = Pending ->
   promise (step (Close code reason) s)
     = Rejected (UnexpectedClose code reason))
  /\ ((forall r, promise s <> Fulfilled r) ->
      exists err, promise (step (Close code reason) s) = Rejected err)
  /\ (forall r, promise s = Fulfilled r ->
      promise (step (Close code reason) s) = Fulfilled r).
Proof.
  intros Hr. destruct (reachable_consistent s Hr) as [H1 H2].
  assert (Hpending : promise s = Pending ->
                     promise (step (Close code reason) s)
                       = Rejected (UnexpectedClose code reason)).
  { intros Hp. destruct (H1 Hp) as [Hflag _]. simpl. rewrite Hflag. simpl.
    by rewrite Hp. }
  split; [done|]. split.
  - intros Hnot. destruct (promise s) as [|r|err] eqn:Hp.
    + eauto.
    + by destruct (Hnot r).
    + exists err. rewrite step_settled; by rewrite Hp.
  - intros r Hp. rewrite step_settled; by rewrite Hp.
Qed.

(** *** Claims about the reassembly *)

(** C5. A binary frame whose decoded text does not contain the separator
    token is dropped whole: processing it leaves the session as it was, so
    it adds no bytes to the audio, nothing to the expected length, and
    rejects nothing; the drain goes on as if the frame had not been
    queued. *)
Theorem frame_without_separator_is_discarded bytes s :
  includes (decode bytes) separator = false ->
  deal bytes s = s
  /\ fragment bytes = None
  /\ declared bytes = 0
  /\ forall k, suspended s !! k = Some bytes ->
       step (Bytes k) s = drain (with_suspended (delete k (suspended s)) s).
Proof.
  intros Hi. apply indexOf_missing in Hi as Hidx.
  assert (Hdeal : forall s0, deal bytes s0 = s0).
  { intros s0. unfold deal. by rewrite Hidx. }
  split; [done|]. split; [unfold fragment; by rewrite Hidx|].
  split; [unfold declared, headerText; by rewrite Hidx|].
  intros k Hk. cbn [step]. by rewrite Hk, Hdeal.
Qed.

(** C3. A termination frame that reaches a pending session drains the
    queue and then validates the length: with an expected length [L] above
    zero and fewer than [L] bytes reassembled, the promise is rejected
    with the incomplete-audio error that carries both counts; with [L]
    zero, or at least [L] bytes, the promise is fulfilled with the bytes
    reassembled. *)
Theorem length_validation s t :
  includes t metadata_marker = false ->
  includes t turn_end_marker = true ->
  promise s = Pending ->
  suspended s = [] ->
  let s' := run (finalization t s) s in
  let L := expectedLength (drained s) in
  let n := totalLength (drained s) in
  (0 < L /\ n < L -> promise s' = Rejected (IncompleteAudio n L))
  /\ (L = 0 \/ L <= n ->
      exists r, promise s' = Fulfilled r
        /\ blob_bytes (audio r) = concat (audioChunks (drained s))).
Proof.
  intros Hm Ht Hp Hsusp. cbv zeta.
  rewrite finalization_finish by done.
  rewrite finish_outcome by (by rewrite drained_promise).
  split.
  - intros [HL Hn].
    apply Z.ltb_lt in HL, Hn. by rewrite HL, Hn.
  - intros HL.
    destruct ((0 <? expectedLength (drained s))
              && (totalLength (drained s) <? expectedLength (drained s)))
      eqn:Hc.
    + apply andb_true_iff in Hc as [H0 H1].
      apply Z.ltb_lt in H0, H1. lia.
    + eexists. split; [done|]. done.
Qed.

(** *** Order of arrival *)

(** X1. Streaming frames in any interleaving and then a termination frame,
    on a fresh session: the promise settles as [outcome] says. The audio is the
    concatenation, in arrival order, of the fragments of the binary
    frames, and the metadata handed to [parseSubtitle] is what the textual
    frames yield, in arrival order. [outcome] reads the binary frames and
    the textual frames apart, so the interleaving of the two kinds does
    not matter. *)
Theorem streaming_then_termination requestId options st ws fs t :
  Forall streaming fs ->
  includes t metadata_marker = false ->
  includes t turn_end_marker = true ->
  let s := run (Message <$> fs) (start requestId options st ws) in
  promise (run (finalization t s) s) = outcome (the_subtitle st) fs
  /\ forall fs', binaries fs' = binaries fs -> texts fs' = texts fs ->
       outcome (the_subtitle st) fs' = outcome (the_subtitle st) fs.
Proof.
  intros Hfs Hm Ht. cbv zeta. split.
  - destruct (feed_fields fs Hfs (start requestId options st ws))
      as (Hr & Hs & Ha & He & Hu & Ho & Hp).
    simpl in Hr, Hs, Ha, He, Hu, Ho, Hp.
    set (s := run (Message <$> fs) (start requestId options st ws)) in *.
    rewrite finalization_finish by done.
    destruct (drained_fields s) as (Hda & Hde & Hds & Hdo).
    rewrite Hr, Ha in Hda. rewrite Hr, He in Hde. rewrite Hs in Hds.
    rewrite Ho in Hdo. simpl in Hda, Hde.
    unfold outcome. destruct (first_failure (texts fs)) as [err|].
    + rewrite finish_settled; rewrite drained_promise, Hp; done.
    + rewrite finish_outcome by (by rewrite drained_promise).
      by rewrite totalLength_concat, Hda, Hde, Hds, Hdo.
  - intros fs' Hb Htx. unfold outcome, metadata. by rewrite Hb, Htx.
Qed.

(** X2. Behind a header of ASCII bytes the fragment the code takes is the
    payload section of the frame: the bytes after the first separator. *)
Theorem ascii_header_fragment (header rest : list byte) :
  Forall Wire.is_ascii header ->
  let frame := header ++ Wire.separator_bytes ++ rest in
  fragment frame = Wire.payload frame /\ is_Some (Wire.payload frame).
Proof.
  intros Hh. cbv zeta.
  assert (Hd : decode (header ++ Wire.separator_bytes ++ rest)
               = (byte_val <$> header) ++ separator
                 ++ concat (utf16 <$> code_points Start rest)).
  { rewrite app_assoc, decode_ascii_prefix.
    - by rewrite fmap_app, separator_of_bytes, <- app_assoc.
    - by destruct header.
    - apply Forall_app. split; [done|].
      unfold Wire.is_ascii. repeat constructor; by vm_compute. }
  destruct (find_separator_ascii header rest
              (concat (utf16 <$> code_points Start rest))) as (i & Hf & Hp).
  rewrite Hp. split; [|eauto].
  unfold fragment, indexOf. rewrite Hd, Hf.
  assert (Hi : (Z.of_nat i =? -1) = false) by (apply Z.eqb_neq; lia).
  rewrite Hi. do 2 f_equal. lia.
Qed.

(** *** The deadline timer *)

Lemma ws_close_not_open (w : WebSocket) : is_open (ws_close w) = false.
Proof.
  unfold is_open, ws_close.
  destruct (readyState w) eqn:Hw; simpl; by rewrite ?Hw.
Qed.

(** X3. The settlements that clear the timer: an error event, a close event,
    a metadata frame that does not parse, and a validation that passes
    leave it unarmed, as does the timer's own callback. *)
Theorem timer_cleared_by_other_settlements s :
  (forall ev, timeout (step (Error ev) s) <> Armed)
  /\ (forall code reason, timeout (step (Close code reason) s) <> Armed)
  /\ timeout (step Timer s) <> Armed
  /\ (forall t j, includes t metadata_marker = true ->
        metadata_payload t = Some j -> JSON_parse j = None ->
        timeout (step (Message (Text t)) s) <> Armed)
  /\ ((0 <? expectedLength s) && (totalLength s <? expectedLength s) = false ->
      timeout (finish s) <> Armed /\ is_open (socket (finish s)) = false).
Proof.
  repeat match goal with |- _ /\ _ => split end.
  - intros ev. simpl. by destruct (timeout s).
  - intros code reason. simpl.
    destruct (isAudioComplete s); simpl; by destruct (timeout s).
  - simpl. destruct (timeout s) eqn:Ht; simpl; congruence.
  - intros t j Hi Hj Hparse. simpl. rewrite Hi, Hj, Hparse. simpl.
    by destruct (timeout s).
  - intros Hc. unfold finish. rewrite Hc. simpl.
    split; [by destruct (timeout s)|]. apply ws_close_not_open.
Qed.

(** X4. A session that nothing has settled has its timer armed, and the
    timer's callback rejects it with the timeout error and closes the
    socket. *)
Theorem deadline_settles_pending_session s :
  reachable s -> promise s = Pending ->
  timeout s = Armed
  /\ promise (step Timer s) = Rejected SessionTimeout
  /\ is_open (socket (step Timer s)) = false.
Proof.
  intros Hr Hp. destruct (reachable_consistent s Hr) as [H1 _].
  destruct (H1 Hp) as [_ Ht]. split; [done|].
  simpl. rewrite Ht. simpl. rewrite Hp. split; [done|].
  apply ws_close_not_open.
Qed.

End Session.

(** ** Properties of the channel set-up and of the defaults *)
Section Channel.
Context `{Collaborators}.

Lemma connect_run_message (es : list Connect.event) (c : Connect.connection) :
  Connect.message (Connect.run es c) = Connect.message c.
Proof.
  revert c. induction es as [|e es IH]; intros c; [done|].
  unfold Connect.run in *. cbn [fold_left]. rewrite IH.
  destruct e; simpl; try done. by destruct (Connect.timeout c).
Qed.

Lemma connect_open_sends (c : Connect.connection) :
  sent (Connect.ws (Connect.step Connect.Open c))
  = sent (Connect.ws c) ++ [Connect.message c].
Proof. done. Qed.

(** C9. [connect] throws the output-format-required error for an absent,
    null or empty output format, and then no socket exists. For a
    non-empty output format it opens a socket to the endpoint and sends
    nothing yet; whenever the open event arrives, the configuration
    message, which embeds the output format, is sent, and a first open
    event fulfils the promise and clears the timer. *)
Theorem connect_requires_output_format :
  (forall o, truthy o = false -> Connect.connect o = inl OutputFormatRequired)
  /\ (forall f, f <> [] ->
      exists c, Connect.connect (Value f) = inr c
        /\ Connect.ws c = ws_new Connect.endpoint
        /\ Connect.promise c = Pending
        /\ Connect.initialMessage f
           = Connect.initialMessage_head ++ f ++ Connect.initialMessage_tail
        /\ (forall es,
             sent (Connect.ws (Connect.step Connect.Open (Connect.run es c)))
             = sent (Connect.ws (Connect.run es c)) ++ [Connect.initialMessage f])
        /\ sent (Connect.ws (Connect.step Connect.Open c))
           = [Connect.initialMessage f]
        /\ Connect.promise (Connect.step Connect.Open c) = Fulfilled ()
        /\ Connect.timeout (Connect.step Connect.Open c) = Cleared).
Proof.
  split.
  - intros [| |[|c f]] Ho; done.
  - intros [|c f] Hf; [done|]. eexists. split; [done|].
    repeat split. intros es. by rewrite connect_open_sends, connect_run_message.
Qed.

(** C10, as amended. [generate] uses its fixed default for each of
    voice, language, output format, rate, pitch and volume that is
    undefined or null, and the caller's value for every other one, the
    empty string included. The subtitle options are the caller's object
    spread over [{splitBy: "sentence", count: 1}]: an undefined or null
    subtitle gives both defaults; the properties of a given object are
    kept, whatever their value, and a default fills each property it lacks. An empty output
    format is handed to [connect] as it is, so [generate] fails with the
    output-format-required error; an absent one is replaced, and the
    configuration message carries the default format. *)
Theorem generate_defaults (options : GenerateOptions) :
  let st := settings_of options in
  ((nullish (voice options) -> the_voice st = str "en-US-AvaNeural")
   /\ (forall v, voice options = Value v -> the_voice st = v))
  /\ ((nullish (language options) -> the_language st = str "en-US")
      /\ (forall v, language options = Value v -> the_language st = v))
  /\ ((nullish (outputFormat options) ->
       the_outputFormat st = str "audio-24khz-96kbitrate-mono-mp3")
      /\ (forall v, outputFormat options = Value v -> the_outputFormat st = v))
  /\ ((nullish (rate options) -> the_rate st = str "default")
      /\ (forall v, rate options = Value v -> the_rate st = v))
  /\ ((nullish (pitch options) -> the_pitch st = str "default")
      /\ (forall v, pitch options = Value v -> the_pitch st = v))
  /\ ((nullish (volume options) -> the_volume st = str "default")
      /\ (forall v, volume options = Value v -> the_volume st = v))
  /\ ((nullish (subtitle options) ->
       the_subtitle st
       = <["splitBy"%string := VString (str "sentence")]>
           (<["count"%string := VNumber 1]> ∅))
      /\ (forall o, subtitle options = Value o ->
          (forall k v, o !! k = Some v -> the_subtitle st !! k = Some v)
          /\ (forall k, o !! k = None ->
              the_subtitle st !! k = default_subtitle !! k)))
  /\ (outputFormat options = Value [] ->
      generate options = inl OutputFormatRequired)
  /\ (nullish (outputFormat options) ->
      exists c, generate options = inr (st, c)
        /\ Connect.message c
           = Connect.initialMessage (str "audio-24khz-96kbitrate-mono-mp3")).
Proof.
  cbv zeta. unfold nullish, generate, settings_of. cbn [the_voice the_language
    the_outputFormat the_rate the_pitch the_volume the_subtitle].
  repeat match goal with |- _ /\ _ => split end.
  - by intros [-> | ->].
  - by intros v ->.
  - by intros [-> | ->].
  - by intros v ->.
  - by intros [-> | ->].
  - by intros v ->.
  - by intros [-> | ->].
  - by intros v ->.
  - by intros [-> | ->].
  - by intros v ->.
  - by intros [-> | ->].
  - by intros v ->.
  - by intros [-> | ->].
  - intros o ->. simpl. unfold spread. split.
    + intros k v Hk. by apply lookup_union_Some_l.
    + intros k Hk. by apply lookup_union_r.
  - by intros ->.
  - intros [-> | ->]; eexists; split; done.
Qed.

End Channel.

(** ** More on the channel set-up *)
Section Handshake.
Context `{Collaborators}.

Implicit Types (c : Connect.connection) (es : list Connect.event).

Lemma connect_run_cons (e : Connect.event) es c :
  Connect.run (e :: es) c = Connect.run es (Connect.step e c).
Proof. done. Qed.

Lemma connect_step_settled (e : Connect.event) c :
  Connect.promise c <> Pending ->
  Connect.promise (Connect.step e c) = Connect.promise c.
Proof.
  intros Hp. destruct e; simpl; try by destruct (Connect.promise c).
  destruct (Connect.timeout c); simpl; try done.
  by destruct (Connect.promise c).
Qed.

Lemma connect_run_settled es c :
  Connect.promise c <> Pending ->
  Connect.promise (Connect.run es c) = Connect.promise c.
Proof.
  revert c. induction es as [|e es IH]; intros c Hp; [done|].
  rewrite connect_run_cons, IH; rewrite connect_step_settled; done.
Qed.

Lemma connect_timer_step (e : Connect.event) c :
  (Connect.promise c = Pending <-> Connect.timeout c = Armed) ->
  (Connect.promise (Connect.step e c) = Pending
   <-> Connect.timeout (Connect.step e c) = Armed).
Proof.
  intros Hc. destruct e; simpl; try done.
  - destruct (Connect.promise c), (Connect.timeout c); simpl; split; done.
  - destruct (Connect.promise c), (Connect.timeout c); simpl; split; done.
  - destruct (Connect.timeout c) eqn:Ht; simpl; rewrite ?Ht; try done.
    destruct (Connect.promise c); simpl; split; done.
Qed.

(** X5. [connect] leaves no dangling timer: in every state a call of
    [connect] reaches, its 10 s timer is armed exactly while its promise is
    pending, and once the promise is settled no event changes it. *)
Theorem connect_timer_follows_promise f c es :
  Connect.connect (Value f) = inr c ->
  (Connect.promise (Connect.run es c) = Pending
   <-> Connect.timeout (Connect.run es c) = Armed)
  /\ forall es',
       Connect.promise (Connect.run es c) <> Pending ->
       Connect.promise (Connect.run es' (Connect.run es c))
       = Connect.promise (Connect.run es c).
Proof.
  intros Hc. split; [|intros es' Hp; by apply connect_run_settled].
  assert (H0 : Connect.promise c = Pending <-> Connect.timeout c = Armed).
  { destruct f as [|x f]; [done|]. injection Hc as <-. done. }
  clear Hc. revert c H0. induction es as [|e es IH]; intros c H0; [done|].
  rewrite connect_run_cons. apply IH. by apply connect_timer_step.
Qed.

Lemma connect_closes n c :
  Connect.promise (Connect.run (replicate n Connect.Close) c)
  = Connect.promise c
  /\ Connect.timeout (Connect.run (replicate n Connect.Close) c)
     = Connect.timeout c.
Proof.
  revert c. induction n as [|n IH]; intros c; [done|].
  cbn [replicate]. rewrite connect_run_cons.
  destruct (IH (Connect.step Connect.Close c)) as [-> ->]. done.
Qed.

(** X6. What settles [connect]: close events alone leave its promise
    pending, however many; the first open event fulfils it, the first error
    event rejects it with that event, and the timer rejects it with the
    timeout error after calling [close] on the socket. Whatever follows
    changes nothing. *)
Theorem connect_first_event_decides f c n es :
  Connect.connect (Value f) = inr c ->
  let closes := replicate n Connect.Close in
  Connect.promise (Connect.run closes c) = Pending
  /\ Connect.promise (Connect.run (closes ++ Connect.Open :: es) c)
     = Fulfilled ()
  /\ (forall ev,
        Connect.promise (Connect.run (closes ++ Connect.Error ev :: es) c)
        = Rejected (TransportError ev))
  /\ Connect.promise (Connect.run (closes ++ Connect.Timer :: es) c)
     = Rejected ConnectTimeout
  /\ is_open (Connect.ws (Connect.step Connect.Timer
                            (Connect.run closes c))) = false.
Proof.
  intros Hc. cbv zeta.
  assert (H0 : Connect.promise c = Pending /\ Connect.timeout c = Armed).
  { destruct f as [|x f]; [done|]. injection Hc as <-. done. }
  destruct H0 as [Hp Ht].
  destruct (connect_closes n c) as [Hcp Hct]. rewrite Hp in Hcp.
  rewrite Ht in Hct.
  assert (Happ : forall e,
    Connect.run (replicate n Connect.Close ++ e :: es) c
    = Connect.run es (Connect.step e
        (Connect.run (replicate n Connect.Close) c))).
  { intros e. unfold Connect.run. by rewrite fold_left_app. }
  repeat match goal with |- _ /\ _ => split end.
  - done.
  - rewrite Happ, connect_run_settled; simpl; by rewrite Hcp.
  - intros ev. rewrite Happ, connect_run_settled; simpl; by rewrite Hcp.
  - rewrite Happ, connect_run_settled; simpl; rewrite Hct; simpl;
      by rewrite Hcp.
  - simpl. rewrite Hct. simpl. apply ws_close_not_open.
Qed.

Lemma connect_step_sent (e : Connect.event) c :
  sent (Connect.ws (Connect.step e c))
  = sent (Connect.ws c)
    ++ match e with Connect.Open => [Connect.message c] | _ => [] end.
Proof.
  destruct e; simpl; rewrite ?app_nil_r; try done.
  - destruct (Connect.timeout c); simpl; try done.
    unfold ws_close. by destruct (readyState (Connect.ws c)).
Qed.

(** X7. [connect] sends the configuration message and nothing else, once
    for each open event: before the socket opens nothing is sent, and
    errors, close events and the timer send nothing. *)
Theorem connect_sends_only_the_configuration f c es :
  Connect.connect (Value f) = inr c ->
  sent (Connect.ws (Connect.run es c))
  = replicate (Connect.opens es) (Connect.initialMessage f).
Proof.
  intros Hc.
  assert (H0 : sent (Connect.ws c) = []
               /\ Connect.message c = Connect.initialMessage f).
  { destruct f as [|x f]; [done|]. injection Hc as <-. done. }
  destruct H0 as [Hs Hm].
  assert (Hgen : forall es c0,
    sent (Connect.ws (Connect.run es c0))
    = sent (Connect.ws c0)
      ++ replicate (Connect.opens es) (Connect.message c0)).
  { clear. induction es as [|e es IH]; intros c0.
    - simpl. by rewrite app_nil_r.
    - rewrite connect_run_cons, IH, connect_step_sent.
      assert (Hmsg : Connect.message (Connect.step e c0) = Connect.message c0).
      { destruct e; simpl; try done. by destruct (Connect.timeout c0). }
      rewrite Hmsg. destruct e; simpl; rewrite <- ?app_assoc, ?app_nil_r; done. }
  by rewrite Hgen, Hs, Hm.
Qed.

Lemma step_sent (e : event) (s : session) :
  sent (socket (step e s)) = sent (socket s).
Proof.
  assert (Hfinish : forall s0, sent (socket (finish s0)) = sent (socket s0)).
  { intros s0. unfold finish. destruct (_ && _); simpl; [done|].
    unfold ws_close. by destruct (readyState (socket s0)). }
  assert (Hdrain : forall s0, sent (socket (drain s0)) = sent (socket s0)).
  { intros s0. unfold drain. destruct (rawAudioChunks s0); [apply Hfinish|done]. }
  destruct e as [[t|b]|code reason|ev| |k]; simpl; try done.
  - destruct (includes t metadata_marker).
    + destruct (metadata_payload t) as [j|]; [|done].
      by destruct (JSON_parse j).
    + destruct (includes t turn_end_marker); [apply Hdrain|done].
  - by destruct (isAudioComplete s).
  - destruct (timeout s); simpl; try done.
    unfold ws_close. by destruct (readyState (socket s)).
  - destruct (suspended s !! k) as [bytes|]; [|done].
    by rewrite Hdrain, deal_socket.
Qed.

Lemma run_sent (evs : list event) (s : session) :
  sent (socket (run evs s)) = sent (socket s).
Proof.
  revert s. induction evs as [|e evs IH]; intros s; [done|].
  by rewrite run_cons, IH, step_sent.
Qed.

(** X8. [generate] awaits [connect]: while [connect]'s promise is pending
    nothing starts; an error event or the 10 s timer before the socket
    opens fails [generate] with [connect]'s error and no request is built.
    When the socket opens, the session starts pending with its 30 s timer
    armed, and over the whole session the socket carries exactly two
    messages: the configuration message with the output format in use,
    then the synthesis request. *)
Theorem request_follows_the_configuration requestId options st c :
  generate options = inr (st, c) ->
  resume requestId options st c = None
  /\ (forall ev,
        resume requestId options st (Connect.step (Connect.Error ev) c)
        = Some (inl (TransportError ev)))
  /\ resume requestId options st (Connect.step Connect.Timer c)
     = Some (inl ConnectTimeout)
  /\ exists s,
       resume requestId options st (Connect.step Connect.Open c)
       = Some (inr s)
       /\ promise s = Pending
       /\ timeout s = Armed
       /\ forall evs : list event,
            sent (socket (run evs s))
            = [Connect.initialMessage (the_outputFormat st);
               requestString requestId st (text options)].
Proof.
  unfold generate. intros Hg.
  destruct (Connect.connect (Value (the_outputFormat (settings_of options))))
    as [err|c0] eqn:Hc; [done|].
  injection Hg as <- <-.
  destruct (the_outputFormat (settings_of options)) as [|x f] eqn:Hf; [done|].
  injection Hc as <-.
  repeat match goal with |- _ /\ _ => split end; try done.
  eexists. split; [done|]. split; [done|]. split; [done|].
  intros evs. by rewrite run_sent.
Qed.

End Handshake.

(** ** More on the session *)
Section Streaming.
Context `{Collaborators}.

Implicit Types (s : session) (e : event) (es : list event).

Lemma reject_not_fulfilled (err : error) s :
  (forall r, promise s <> Fulfilled r) ->
  forall r, promise (reject err s) <> Fulfilled r.
Proof.
  intros Hp r. simpl. destruct (promise s) eqn:Hs; simpl; done.
Qed.

(** Before a termination frame: no drain under way, nothing reassembled,
    nothing fulfilled. *)
Lemma quiet_step e s :
  quiet e ->
  suspended s = [] -> audioChunks s = [] -> expectedLength s = 0 ->
  isAudioComplete s = false -> (forall r, promise s <> Fulfilled r) ->
  suspended (step e s) = [] /\ audioChunks (step e s) = []
  /\ expectedLength (step e s) = 0 /\ isAudioComplete (step e s) = false
  /\ (forall r, promise (step e s) <> Fulfilled r)
  /\ rawAudioChunks (step e s) = rawAudioChunks s ++ queued [e].
Proof.
  intros Hq Hs Ha He Hf Hp.
  destruct e as [[t|b]|code reason|ev| |k]; cbn [step on_message queued omap
    list_omap]; rewrite ?app_nil_r.
  - simpl in Hq. destruct (includes t metadata_marker) eqn:Hm.
    + destruct (metadata_payload t) as [j|].
      * destruct (JSON_parse j); simpl; repeat split; try done.
        by apply (reject_not_fulfilled _ (clearTimeout s)).
      * simpl; repeat split; try done.
        by apply (reject_not_fulfilled _ (clearTimeout s)).
    + destruct (includes t turn_end_marker) eqn:Ht; [|done].
      destruct Hq. by split.
  - done.
  - simpl. rewrite Hf. simpl. repeat split; try done.
    by apply (reject_not_fulfilled _
                (with_socket (ws_set_state CLOSED (socket s)) s)).
  - simpl. repeat split; try done.
    by apply (reject_not_fulfilled _
                (clearTimeout (with_socket (ws_set_state CLOSED (socket s)) s))).
  - destruct (timeout s); simpl; repeat split; try done.
    by apply (reject_not_fulfilled _ (socket_close (with_timeout Fired s))).
  - rewrite Hs. done.
Qed.

(** X9. Until a termination frame arrives nothing is reassembled and
    nothing is delivered: whatever else happens (binary frames, metadata
    frames, other text, close, error, the timer), the binary frames are
    only queued, in their order, the audio list and the expected length
    stay empty, and the promise is never fulfilled. A textual frame that
    holds both markers counts as metadata, not as termination. *)
Theorem nothing_is_delivered_before_termination requestId options st ws es :
  Forall quiet es ->
  let s := run es (start requestId options st ws) in
  (forall r, promise s <> Fulfilled r)
  /\ rawAudioChunks s = queued es
  /\ audioChunks s = []
  /\ expectedLength s = 0
  /\ isAudioComplete s = false.
Proof.
  intros Hq. cbv zeta.
  assert (Hgen : forall s,
    suspended s = [] -> audioChunks s = [] -> expectedLength s = 0 ->
    isAudioComplete s = false -> (forall r, promise s <> Fulfilled r) ->
    suspended (run es s) = [] /\ audioChunks (run es s) = []
    /\ expectedLength (run es s) = 0 /\ isAudioComplete (run es s) = false
    /\ (forall r, promise (run es s) <> Fulfilled r)
    /\ rawAudioChunks (run es s) = rawAudioChunks s ++ queued es).
  { induction Hq as [|e es He _ IH]; intros s Hs Ha Hl Hf Hp.
    - simpl. by rewrite app_nil_r.
    - rewrite run_cons.
      destruct (quiet_step e s He Hs Ha Hl Hf Hp) as (Hs1 & Ha1 & Hl1 & Hf1 & Hp1 & Hr1).
      destruct (IH _ Hs1 Ha1 Hl1 Hf1 Hp1) as (Hs2 & Ha2 & Hl2 & Hf2 & Hp2 & Hr2).
      repeat split; try done.
      rewrite Hr2, Hr1, <- app_assoc. f_equal.
      unfold queued. cbn [omap list_omap].
      by destruct e as [[t|b]|code reason|ev| |k]. }
  destruct (Hgen (start requestId options st ws)) as (_ & Ha & Hl & Hf & Hp & Hr);
    try done.
Qed.

(** *** What is collected stays *)

Lemma digits_nonneg (ds : jsstring) :
  Forall (fun c => is_digit c = true) ds -> 0 <= Wire.decimal_value ds.
Proof.
  induction 1 as [|c ds Hc _ IH]; simpl; [lia|].
  unfold is_digit in Hc. apply andb_true_iff in Hc as [Hc _].
  apply Z.leb_le in Hc.
  assert (0 <= 10 ^ Z.of_nat (length ds)) by (apply Z.pow_nonneg; lia).
  nia.
Qed.

(** What a header declares is never negative. *)
Lemma declared_nonneg bytes : 0 <= declared bytes.
Proof.
  unfold declared. destruct (headerText bytes) as [h|]; simpl; [|lia].
  destruct (exec_ci_digits content_length_key h) as [ds|] eqn:He; [|lia].
  apply exec_first_field in He as (pre & (key & rest & _ & _ & _ & Hd & _) & _).
  rewrite parseInt10_decimal. by apply digits_nonneg.
Qed.

Lemma finish_collected s :
  audioChunks (finish s) = audioChunks s
  /\ subtitleChunks (finish s) = subtitleChunks s
  /\ expectedLength (finish s) = expectedLength s.
Proof. unfold finish. by destruct (_ && _). Qed.

Lemma drain_collected s :
  audioChunks (drain s) = audioChunks s
  /\ subtitleChunks (drain s) = subtitleChunks s
  /\ expectedLength (drain s) = expectedLength s.
Proof.
  unfold drain. destruct (rawAudioChunks s); [apply finish_collected|done].
Qed.

Lemma step_collected e s :
  audioChunks s `prefix_of` audioChunks (step e s)
  /\ subtitleChunks s `prefix_of` subtitleChunks (step e s)
  /\ expectedLength s <= expectedLength (step e s).
Proof.
  destruct e as [[t|b]|code reason|ev| |k]; cbn [step on_message].
  - destruct (includes t metadata_marker).
    + destruct (metadata_payload t) as [j|]; [|simpl; by repeat split].
      destruct (JSON_parse j); simpl; repeat split; try done.
      by apply prefix_app_r.
    + destruct (includes t turn_end_marker); [|by repeat split].
      destruct (drain_collected s) as (-> & -> & ->). by repeat split.
  - by repeat split.
  - destruct (isAudioComplete _); simpl; by repeat split.
  - by repeat split.
  - destruct (timeout s); simpl; by repeat split.
  - destruct (suspended s !! k) as [bytes|]; [|by repeat split].
    destruct (drain_collected (deal bytes
                (with_suspended (delete k (suspended s)) s))) as (-> & -> & ->).
    rewrite deal_audioChunks, deal_subtitleChunks, deal_expectedLength. simpl.
    pose proof (declared_nonneg bytes).
    repeat split; [by apply prefix_app_r|done|lia].
Qed.

(** X10. What a session has collected is never dropped or reordered: over
    any events the fragments and the metadata only grow at the end, and the
    expected length never decreases; in a session of [generate] it is
    never negative. *)
Theorem collected_data_only_grows s es :
  (audioChunks s `prefix_of` audioChunks (run es s)
   /\ subtitleChunks s `prefix_of` subtitleChunks (run es s)
   /\ expectedLength s <= expectedLength (run es s))
  /\ (reachable s -> 0 <= expectedLength s).
Proof.
  assert (Hrun : forall es s,
    audioChunks s `prefix_of` audioChunks (run es s)
    /\ subtitleChunks s `prefix_of` subtitleChunks (run es s)
    /\ expectedLength s <= expectedLength (run es s)).
  { clear. induction es as [|e es IH]; intros s; [by repeat split|].
    rewrite run_cons.
    destruct (step_collected e s) as (Ha & Hs & Hl).
    destruct (IH (step e s)) as (Ha' & Hs' & Hl').
    repeat split; [by etrans|by etrans|lia]. }
  split; [apply Hrun|].
  induction 1 as [requestId options st ws|e s0 _ IH]; [done|].
  destruct (step_collected e s0) as (_ & _ & Hl). lia.
Qed.

(** *** Events during the drain *)

(** X11. A close event, an error event or the timer that comes while the
    termination frame's drain still waits for the bytes of a chunk fails
    the session, although every frame has arrived: the promise is rejected
    with that event's error, and the end of the drain changes nothing. *)
Theorem interrupted_finalization_fails s t es :
  reachable s -> promise s = Pending ->
  rawAudioChunks s <> [] -> termination t ->
  (forall code reason,
     promise (run (Message (Text t) :: Close code reason :: es) s)
     = Rejected (UnexpectedClose code reason))
  /\ (forall ev,
        promise (run (Message (Text t) :: Error ev :: es) s)
        = Rejected (TransportError ev))
  /\ promise (run (Message (Text t) :: Timer :: es) s)
     = Rejected SessionTimeout.
Proof.
  intros Hr Hp Hq [Hm Ht].
  destruct (reachable_consistent s Hr) as [H1 _].
  destruct (H1 Hp) as [Hflag Htimer].
  assert (Hstep : exists s1,
    step (Message (Text t)) s = s1 /\ promise s1 = Pending
    /\ isAudioComplete s1 = false /\ timeout s1 = Armed).
  { eexists. split; [done|]. cbn [step on_message]. rewrite Hm, Ht.
    unfold drain. destruct (rawAudioChunks s); [done|]. by simpl. }
  destruct Hstep as (s1 & Hs1 & Hp1 & Hf1 & Ht1).
  repeat match goal with |- _ /\ _ => split end.
  - intros code reason. rewrite !run_cons, Hs1, run_settled; simpl;
      rewrite Hf1; simpl; by rewrite Hp1.
  - intros ev. rewrite !run_cons, Hs1, run_settled; simpl; by rewrite Hp1.
  - rewrite !run_cons, Hs1, run_settled; simpl; rewrite Ht1; simpl;
      by rewrite Hp1.
Qed.

(** X12. A binary frame that arrives after the termination frame is
    reassembled with the others as long as the drain is still under way:
    the session ends as if the two frames had come in the other order. With
    an empty queue the termination frame settles the session at once, and
    a binary frame that comes later changes nothing of the result. *)
Theorem late_frame_joins_the_drain s t b :
  termination t -> suspended s = [] ->
  (rawAudioChunks s <> [] ->
   let bytes := replicate (S (length (rawAudioChunks s))) (Bytes 0) in
   run (Message (Text t) :: Message (Binary b) :: bytes) s
   = run (Message (Binary b) :: Message (Text t) :: bytes) s)
  /\ (rawAudioChunks s = [] -> promise s = Pending ->
      forall es,
        promise (run (Message (Text t) :: Message (Binary b) :: es) s)
        = promise (finish s)).
Proof.
  intros [Hm Ht] Hsusp. split.
  - intros Hq. cbv zeta.
    destruct (rawAudioChunks s) as [|a q] eqn:Hraw; [done|].
    set (s' := step (Message (Binary b)) s).
    assert (Hraw' : rawAudioChunks s' = a :: q ++ [b]).
    { unfold s'. simpl. by rewrite Hraw. }
    assert (Hleft : step (Message (Binary b)) (step (Message (Text t)) s)
                    = drain s').
    { cbn [step on_message]. rewrite Hm, Ht. unfold drain.
      rewrite Hraw, Hraw'. unfold s'. destruct s; simpl in *. by subst. }
    rewrite !run_cons, Hleft.
    assert (Hright : step (Message (Text t)) s' = drain s').
    { cbn [step on_message]. by rewrite Hm, Ht. }
    fold s'. rewrite Hright. done.
  - intros Hq Hp es. rewrite !run_cons.
    assert (Hfin : step (Message (Text t)) s = finish s).
    { cbn [step on_message]. rewrite Hm, Ht. unfold drain. by rewrite Hq. }
    rewrite Hfin, run_settled, step_settled; try done.
    + rewrite finish_outcome by done. by destruct (_ && _).
    + rewrite step_settled; rewrite finish_outcome by done;
        by destruct (_ && _).
Qed.

End Streaming.

(** ** More on the decoding of binary frames *)
Section Decoding.
Context `{Collaborators}.

Lemma utf16_small (cp : Z) : cp < 65536 -> utf16 cp = [cp].
Proof. intros Hc. unfold utf16. apply Z.ltb_lt in Hc. by rewrite Hc. Qed.

Lemma utf16_length (cp : Z) : (length (utf16 cp) <= 2)%nat.
Proof. unfold utf16. destruct (cp <? 65536); simpl; lia. Qed.

Lemma units_app (l1 l2 : list Z) : units (l1 ++ l2) = units l1 ++ units l2.
Proof. unfold units. by rewrite fmap_app, concat_app. Qed.

Lemma units_cons (cp : Z) (l : list Z) : units (cp :: l) = utf16 cp ++ units l.
Proof. done. Qed.

Lemma units_ascii (a : list byte) :
  Forall Wire.is_ascii a -> units (byte_val <$> a) = byte_val <$> a.
Proof.
  intros Ha. pose proof (utf16_ascii a [] Ha) as Hu.
  unfold units. by rewrite !app_nil_r in Hu.
Qed.

(** A lead byte gives at most one code unit, or opens a sequence. *)
Lemma lead_units (b : Z) st out :
  lead b = (st, out) -> (length (units out) + owed st <= 1)%nat.
Proof.
  unfold lead.
  destruct (b <=? 127) eqn:Hb.
  { intros [= <- <-]. apply Z.leb_le in Hb.
    rewrite units_cons, utf16_small by lia. simpl. lia. }
  destruct ((194 <=? b) && (b <=? 223)); [intros [= <- <-]; simpl; lia|].
  destruct ((224 <=? b) && (b <=? 239)); [intros [= <- <-]; simpl; lia|].
  destruct ((240 <=? b) && (b <=? 244)); intros [= <- <-]; simpl; lia.
Qed.

Lemma dstep_units st (b : Z) st' out :
  dstep st b = (st', out) ->
  (length (units out) + owed st' <= 1 + owed st)%nat.
Proof.
  destruct st as [|cp needed lower upper]; cbn [dstep].
  - intros Hl. apply lead_units in Hl. simpl. lia.
  - destruct ((lower <=? b) && (b <=? upper)).
    + destruct needed as [|[|k]]; intros [= <- <-];
        rewrite ?units_cons; simpl; rewrite ?app_nil_r;
        try (pose proof (utf16_length
               (Z.lor (Z.shiftl cp 6) (Z.land b 63)))); lia.
    + destruct (lead b) as [st1 out1] eqn:Hl. intros [= <- <-].
      apply lead_units in Hl. rewrite units_cons. simpl in *. lia.
Qed.

Lemma code_points_units st (bs : list byte) :
  (length (units (code_points st bs)) <= length bs + owed st)%nat.
Proof.
  revert st. induction bs as [|b bs IH]; intros st.
  - destruct st; simpl; lia.
  - cbn [code_points]. destruct (dstep st (byte_val b)) as [st' out] eqn:Hd.
    apply dstep_units in Hd. specialize (IH st').
    rewrite units_app, length_app. simpl. lia.
Qed.

Lemma strip_bom_units (cps : list Z) :
  (length (units (strip_bom cps)) <= length (units cps))%nat.
Proof.
  destruct cps as [|cp cps]; [done|]. cbn [strip_bom].
  destruct (cp =? 65279); [|done]. rewrite units_cons, length_app. lia.
Qed.

(** The decoded text of a frame is never longer than the frame: the
    index of the separator in the text is at most its offset in the
    bytes. *)
Lemma decoded_text_is_no_longer (bs : list byte) :
  (length (decode bs) <= length bs)%nat.
Proof.
  unfold decode. fold (units (strip_bom (code_points Start bs))).
  pose proof (strip_bom_units (code_points Start bs)).
  pose proof (code_points_units Start bs). simpl in *. lia.
Qed.

Lemma lead_expects (b : Z) st out :
  lead b = (st, out) -> expects_continuation st.
Proof.
  unfold lead.
  destruct (b <=? 127); [by intros [= <- <-]|].
  destruct ((194 <=? b) && (b <=? 223)); [intros [= <- <-]; simpl; lia|].
  destruct ((224 <=? b) && (b <=? 239)).
  { intros [= <- <-]. simpl. destruct (b =? 224); lia. }
  destruct ((240 <=? b) && (b <=? 244)); intros [= <- <-]; simpl; [|done].
  destruct (b =? 240); lia.
Qed.

Lemma dstep_expects st (b : Z) st' out :
  dstep st b = (st', out) -> expects_continuation st'.
Proof.
  destruct st as [|cp needed lower upper]; cbn [dstep].
  - apply lead_expects.
  - destruct ((lower <=? b) && (b <=? upper)).
    + destruct needed as [|[|k]]; intros [= <- <-]; simpl; lia.
    + destruct (lead b) as [st1 out1] eqn:Hl. intros [= <- <-].
      by apply lead_expects in Hl.
Qed.

(** An ASCII byte ends whatever sequence is open and stands for itself. *)
Lemma code_points_ascii_byte st (x : byte) (bs : list byte) :
  expects_continuation st -> Wire.is_ascii x ->
  code_points st (x :: bs)
  = code_points st [] ++ byte_val x :: code_points Start bs.
Proof.
  unfold Wire.is_ascii. intros Hst Hx. cbn [code_points].
  assert (Hlead : lead (byte_val x) = (Start, [byte_val x])).
  { unfold lead. apply Z.leb_le in Hx. by rewrite Hx. }
  destruct st as [|cp needed lower upper]; cbn [dstep].
  - by rewrite Hlead.
  - simpl in Hst.
    assert (Hlow : (lower <=? byte_val x) = false) by (apply Z.leb_gt; lia).
    rewrite Hlow, Hlead. done.
Qed.

Lemma code_points_app_ascii (pre a rest : list byte) st :
  expects_continuation st -> a <> [] -> Forall Wire.is_ascii a ->
  code_points st (pre ++ a ++ rest)
  = code_points st pre ++ (byte_val <$> a) ++ code_points Start rest.
Proof.
  intros Hst Hne Ha. revert st Hst.
  induction pre as [|b pre IH]; intros st Hst.
  - destruct a as [|x a]; [done|]. apply Forall_cons in Ha as [Hx Ha].
    cbn [app]. rewrite code_points_ascii_byte by done.
    rewrite code_points_ascii by done. by rewrite fmap_cons.
  - cbn [app code_points].
    destruct (dstep st (byte_val b)) as [st' out] eqn:Hd.
    rewrite IH by (by apply dstep_expects in Hd). by rewrite app_assoc.
Qed.

(** Decoding goes through a run of ASCII bytes unchanged, whatever comes
    before and after it. *)
Lemma decode_app_ascii (pre a rest : list byte) :
  a <> [] -> Forall Wire.is_ascii a ->
  decode (pre ++ a ++ rest)
  = decode pre ++ (byte_val <$> a) ++ units (code_points Start rest).
Proof.
  intros Hne Ha. unfold decode.
  fold (units (strip_bom (code_points Start (pre ++ a ++ rest)))).
  fold (units (strip_bom (code_points Start pre))).
  rewrite code_points_app_ascii by done.
  assert (Hstrip : strip_bom (code_points Start pre ++ (byte_val <$> a)
                              ++ code_points Start rest)
                   = strip_bom (code_points Start pre) ++ (byte_val <$> a)
                     ++ code_points Start rest).
  { destruct (code_points Start pre) as [|cp cps].
    - destruct a as [|x a]; [done|]. apply Forall_cons in Ha as [Hx _].
      rewrite fmap_cons. cbn [app strip_bom]. unfold Wire.is_ascii in Hx.
      assert (Hb : (byte_val x =? 65279) = false) by (apply Z.eqb_neq; lia).
      by rewrite Hb.
    - cbn [app strip_bom]. by destruct (cp =? 65279). }
  rewrite Hstrip, !units_app, units_ascii by done. done.
Qed.

(** X13. A binary frame whose bytes hold the separator is never
    discarded, and its audio bytes are never cut: the fragment taken from
    the frame ends with everything that follows the separator, preceded at
    most by bytes of the separator and of the header. *)
Theorem fragment_ends_with_the_payload (header payload : list byte) :
  let before := header ++ Wire.separator_bytes in
  exists k,
    (length separator <= k <= length before)%nat
    /\ fragment (before ++ payload) = Some (drop k before ++ payload).
Proof.
  cbv zeta.
  assert (Hd : decode ((header ++ Wire.separator_bytes) ++ payload)
               = decode header ++ separator
                 ++ units (code_points Start payload)).
  { rewrite <- app_assoc, decode_app_ascii; [done|done|].
    unfold Wire.is_ascii. repeat constructor; by vm_compute. }
  destruct (find separator (decode ((header ++ Wire.separator_bytes) ++ payload)))
    as [i|] eqn:Hf.
  - destruct (find_spec _ _ _ Hf) as (rest & _ & Hmin).
    specialize (Hmin _ _ Hd).
    pose proof (decoded_text_is_no_longer header) as Hlen.
    exists (i + length separator)%nat. split.
    + rewrite length_app. change (length Wire.separator_bytes) with 12%nat.
      change (length separator) with 12%nat. lia.
    + unfold fragment, indexOf. rewrite Hf.
      assert (Hi : (Z.of_nat i =? -1) = false) by (apply Z.eqb_neq; lia).
      rewrite Hi. f_equal.
      rewrite <- Nat2Z.inj_add, Nat2Z.id.
      apply drop_app_le. rewrite length_app.
      change (length Wire.separator_bytes) with 12%nat.
      change (length separator) with 12%nat. lia.
  - exfalso. by apply (find_None _ _ (decode header)
                         (units (code_points Start payload)) Hf).
Qed.

End Decoding.

(** ** Which binary frames are discarded *)
Section Discard.
Context `{Collaborators}.

Lemma byte_val_range (b : byte) : 0 <= byte_val b <= 255.
Proof.
  unfold byte_val. pose proof (Byte.to_N_bounded b). lia.
Qed.

Lemma lor_lower_bound (a b : Z) :
  0 <= a -> 0 <= b -> a <= Z.lor a b /\ b <= Z.lor a b.
Proof.
  intros Ha Hb. split.
  - pose proof (Z.sub_lor_l_same_r b a) as Hs. rewrite Z.lor_comm in Hs.
    assert (0 <= Z.land b (Z.lnot a)) by (apply Z.land_nonneg; lia). lia.
  - pose proof (Z.sub_lor_l_same_r a b) as Hs.
    assert (0 <= Z.land a (Z.lnot b)) by (apply Z.land_nonneg; lia). lia.
Qed.

Lemma land_low_bits (b n : Z) :
  0 <= n -> Z.land b (Z.ones n) = b mod 2 ^ n.
Proof. intros Hn. by apply Z.land_ones. Qed.

(** The code point under construction after one more continuation byte. *)
Lemma continuation_bounds (cp b : Z) :
  0 <= cp -> 128 <= b <= 191 ->
  let cp' := Z.lor (Z.shiftl cp 6) (Z.land b 63) in
  64 * cp <= cp' /\ b - 128 <= cp'.
Proof.
  intros Hcp Hb. cbv zeta.
  assert (Hland : Z.land b 63 = b - 128).
  { change 63 with (Z.ones 6). rewrite land_low_bits by lia.
    change (2 ^ 6) with 64. Z.div_mod_to_equations. lia. }
  rewrite Hland, Z.shiftl_mul_pow2 by lia. change (2 ^ 6) with 64.
  destruct (lor_lower_bound (cp * 64) (b - 128)); lia.
Qed.

Lemma utf16_high (cp : Z) : high cp -> Forall high (utf16 cp).
Proof.
  unfold high, utf16. intros Hc. destruct (cp <? 65536) eqn:Hlt.
  - by repeat constructor.
  - apply Z.ltb_ge in Hlt.
    assert (0 <= Z.shiftr (cp - 65536) 10) by (apply Z.shiftr_nonneg; lia).
    assert (0 <= Z.land (cp - 65536) 1023) by (apply Z.land_nonneg; lia).
    repeat constructor; unfold high; lia.
Qed.

Lemma units_high (cps : list Z) : Forall high cps -> Forall high (units cps).
Proof.
  induction 1 as [|cp cps Hc _ IH]; [constructor|].
  rewrite units_cons. apply Forall_app. split; [by apply utf16_high|done].
Qed.

(** What a lead byte gives: itself, if it is ASCII, or nothing below 128. *)
Lemma lead_shape (b : Z) st out :
  0 <= b <= 255 -> lead b = (st, out) ->
  sound st
  /\ ((st = Start /\ b <= 127 /\ out = [b]) \/ Forall high out).
Proof.
  intros Hb. unfold lead.
  destruct (b <=? 127) eqn:H1.
  { apply Z.leb_le in H1. intros [= <- <-]. split; [done|]. by left. }
  destruct ((194 <=? b) && (b <=? 223)) eqn:H2.
  { apply andb_true_iff in H2 as [Hl Hu]. apply Z.leb_le in Hl, Hu.
    intros [= <- <-]. split; [|right; constructor].
    assert (Hland : Z.land b 31 = b - 192).
    { change 31 with (Z.ones 5). rewrite land_low_bits by lia.
      change (2 ^ 5) with 32. Z.div_mod_to_equations. lia. }
    simpl. rewrite Hland. lia. }
  destruct ((224 <=? b) && (b <=? 239)) eqn:H3.
  { apply andb_true_iff in H3 as [Hl Hu]. apply Z.leb_le in Hl, Hu.
    intros [= <- <-]. split; [|right; constructor].
    assert (Hland : Z.land b 15 = b - 224).
    { change 15 with (Z.ones 4). rewrite land_low_bits by lia.
      change (2 ^ 4) with 16. Z.div_mod_to_equations. lia. }
    simpl. rewrite Hland.
    destruct (b =? 224) eqn:He; destruct (b =? 237);
      try apply Z.eqb_neq in He; lia. }
  destruct ((240 <=? b) && (b <=? 244)) eqn:H4.
  { apply andb_true_iff in H4 as [Hl Hu]. apply Z.leb_le in Hl, Hu.
    intros [= <- <-]. split; [|right; constructor].
    assert (Hland : Z.land b 7 = b - 240).
    { change 7 with (Z.ones 3). rewrite land_low_bits by lia.
      change (2 ^ 3) with 8. Z.div_mod_to_equations. lia. }
    simpl. rewrite Hland.
    destruct (b =? 240) eqn:He; destruct (b =? 244);
      try apply Z.eqb_neq in He; lia. }
  intros [= <- <-]. split; [done|]. right. by repeat constructor.
Qed.

(** What one step gives: nothing below 128, except an ASCII byte itself,
    last, with the decoder back at the start. *)
Lemma dstep_shape st (b : Z) st' out :
  sound st -> 0 <= b <= 255 -> dstep st b = (st', out) ->
  sound st'
  /\ (Forall high out
      \/ exists hi, out = hi ++ [b] /\ Forall high hi /\ b <= 127 /\ st' = Start).
Proof.
  intros Hst Hb. destruct st as [|cp needed lower upper]; cbn [dstep].
  - intros Hl. destruct (lead_shape _ _ _ Hb Hl) as [Hs [(-> & Hle & ->)|Hh]].
    + split; [done|]. right. exists []. by repeat split.
    + split; [done|]. by left.
  - destruct Hst as (Hlo & Hup & Hcp & Hn).
    destruct ((lower <=? b) && (b <=? upper)) eqn:Hin.
    + apply andb_true_iff in Hin as [Hl Hu]. apply Z.leb_le in Hl, Hu.
      destruct (continuation_bounds cp b Hcp) as [H64 H128]; [lia|].
      destruct needed as [|[|[|[|k]]]]; try done; intros [= <- <-].
      * split; [done|]. left. repeat constructor. unfold high. lia.
      * split; [|left; constructor]. simpl. repeat split; try lia.
      * split; [|left; constructor]. simpl. repeat split; try lia.
    + destruct (lead b) as [st1 out1] eqn:Hl. intros [= <- <-].
      destruct (lead_shape _ _ _ Hb Hl) as [Hs [(-> & Hle & ->)|Hh]].
      * split; [done|]. right. exists [REPLACEMENT].
        repeat split; try done. by repeat constructor.
      * split; [done|]. left. constructor; [by vm_compute|done].
Qed.

(** Inside a sequence the next code unit is never ASCII. *)
Lemma in_sequence_head cp needed lower upper (bs : list byte) c l :
  sound (Cont cp needed lower upper) ->
  units (code_points (Cont cp needed lower upper) bs) = c :: l -> high c.
Proof.
  revert cp needed lower upper.
  induction bs as [|b bs IH]; intros cp needed lower upper Hst.
  - intros [= <- <-]. by vm_compute.
  - cbn [code_points].
    destruct (dstep (Cont cp needed lower upper) (byte_val b))
      as [st' out] eqn:Hd.
    rewrite units_app.
    pose proof (dstep_shape _ _ _ _ Hst (byte_val_range b) Hd) as [Hs' Hshape].
    cbn [dstep] in Hd. destruct Hst as (Hlo & _).
    destruct ((lower <=? byte_val b) && (byte_val b <=? upper)) eqn:Hin.
    + apply andb_true_iff in Hin as [Hl _]. apply Z.leb_le in Hl.
      destruct Hshape as [Hh|(hi & _ & _ & Hle & _)]; [|lia].
      apply units_high in Hh.
      assert (Hnonempty : forall cp0, units [cp0] <> []).
      { intros cp0. rewrite units_cons. unfold utf16. by destruct (_ <? _). }
      destruct needed as [|[|k]]; injection Hd as <- <-.
      * destruct (units [_]) as [|c0 l0] eqn:Hu0; [by destruct (Hnonempty _ Hu0)|].
        intros [= <- _]. by apply Forall_cons in Hh as [Hh _].
      * destruct (units [_]) as [|c0 l0] eqn:Hu0; [by destruct (Hnonempty _ Hu0)|].
        intros [= <- _]. by apply Forall_cons in Hh as [Hh _].
      * simpl. by apply IH.
    + destruct (lead (byte_val b)) as [st1 out1]. injection Hd as <- <-.
      rewrite units_cons. intros [= <- _]. by vm_compute.
Qed.

(** A text that starts with ASCII code units was decoded from bytes that
    start with them. *)
Lemma ascii_prefix_of_decoded (p bs : list byte) (v : jsstring) :
  Forall Wire.is_ascii p ->
  units (code_points Start bs) = (byte_val <$> p) ++ v ->
  exists rest, bs = p ++ rest.
Proof.
  intros Hp. revert bs. induction Hp as [|x p Hx _ IH]; intros bs; [by eauto|].
  unfold Wire.is_ascii in Hx.
  destruct bs as [|b bs]; [done|]. cbn [code_points dstep].
  destruct (lead (byte_val b)) as [st' out] eqn:Hl.
  destruct (lead_shape _ _ _ (byte_val_range b) Hl) as [Hs [(-> & Hle & ->)|Hh]].
  - rewrite units_app, units_cons, utf16_small by lia. rewrite fmap_cons.
    simpl. intros [= Hxb Hrest]. apply byte_val_inj in Hxb as <-.
    destruct (IH _ Hrest) as [rest ->]. by exists rest.
  - rewrite units_app, fmap_cons. intros Hu. exfalso.
    apply units_high in Hh.
    destruct (units out) as [|c0 l0] eqn:Hout.
    + simpl in Hu. destruct st' as [|cp needed lower upper].
      * assert (Hone : exists cp0, out = [cp0]).
        { unfold lead in Hl.
          destruct (byte_val b <=? 127); [injection Hl as <-; eauto|].
          destruct ((194 <=? byte_val b) && (byte_val b <=? 223));
            [discriminate|].
          destruct ((224 <=? byte_val b) && (byte_val b <=? 239));
            [discriminate|].
          destruct ((240 <=? byte_val b) && (byte_val b <=? 244));
            [discriminate|].
          injection Hl as <-. eauto. }
        destruct Hone as [cp0 ->]. rewrite units_cons in Hout.
        unfold utf16 in Hout. by destruct (_ <? _).
      * pose proof (in_sequence_head _ _ _ _ _ _ _ Hs Hu) as Hc.
        unfold high in Hc. lia.
    + injection Hu as -> _. apply Forall_cons in Hh as [Hh _].
      unfold high in Hh. lia.
Qed.

(** Code units of 128 or more in front of a text hide no ASCII unit. *)
Lemma skip_high (o u v r : jsstring) (c : Z) (p : jsstring) :
  Forall high o -> c <= 127 ->
  u ++ (c :: p) ++ v = o ++ r ->
  exists u', u = o ++ u' /\ u' ++ (c :: p) ++ v = r.
Proof.
  intros Ho Hc. revert u. induction Ho as [|x o Hx _ IH]; intros u Hu.
  - by exists u.
  - destruct u as [|a u].
    + injection Hu as <- _. unfold high in Hx. lia.
    + injection Hu as -> Hu. destruct (IH _ Hu) as (u' & -> & Hr).
      by exists u'.
Qed.

(** ASCII code units in the decoded text come from these very bytes. *)
Lemma ascii_infix_of_decoded (x : byte) (p bs : list byte) st (u v : jsstring) :
  sound st -> Forall Wire.is_ascii (x :: p) ->
  units (code_points st bs) = u ++ (byte_val <$> x :: p) ++ v ->
  exists pre rest, bs = pre ++ (x :: p) ++ rest.
Proof.
  intros Hst Hp. apply Forall_cons in Hp as Hxp. destruct Hxp as [Hx Hp'].
  unfold Wire.is_ascii in Hx. rewrite fmap_cons.
  revert st u Hst. induction bs as [|b bs IH]; intros st u Hst.
  - destruct st as [|cp needed lower upper]; simpl.
    + by destruct u.
    + destruct u as [|a [|a' u]]; simpl; intros [= ]; try lia.
      all: try discriminate.
      unfold REPLACEMENT in *. lia.
  - cbn [code_points].
    destruct (dstep st (byte_val b)) as [st' out] eqn:Hd.
    destruct (dstep_shape _ _ _ _ Hst (byte_val_range b) Hd)
      as [Hs' [Hh|(hi & -> & Hh & Hle & ->)]].
    + rewrite units_app. intros Hu. apply units_high in Hh.
      destruct (skip_high _ _ _ _ _ _ Hh Hx (eq_sym Hu)) as (u' & -> & Hr).
      destruct (IH _ _ Hs' (eq_sym Hr)) as (pre & rest & ->).
      by exists (b :: pre), rest.
    + rewrite !units_app, units_cons, utf16_small by lia.
      rewrite <- !app_assoc. intros Hu. apply units_high in Hh.
      destruct (skip_high _ _ _ _ _ _ Hh Hx (eq_sym Hu)) as (u' & -> & Hr).
      simpl in Hr. destruct u' as [|a u'].
      * simpl in Hr. injection Hr as Hxb Hr. apply byte_val_inj in Hxb as ->.
        destruct (ascii_prefix_of_decoded p bs v Hp' (eq_sym Hr)) as [rest ->].
        by exists [], rest.
      * injection Hr as _ Hr.
        destruct (IH Start _ I (eq_sym Hr)) as (pre & rest & ->).
        by exists (b :: pre), rest.
Qed.

(** The decoded text holds the separator only if the bytes do. *)
Lemma separator_in_decoded (bs : list byte) :
  includes (decode bs) separator = true ->
  exists pre rest, bs = pre ++ Wire.separator_bytes ++ rest.
Proof.
  unfold includes. intros Hi. apply bool_decide_eq_true in Hi as [i Hf].
  destruct (find_spec _ _ _ Hf) as (v & Hd & _).
  assert (Hstrip : exists w, units (code_points Start bs) = w ++ decode bs).
  { unfold decode. fold (units (strip_bom (code_points Start bs))).
    destruct (code_points Start bs) as [|cp cps]; [by exists []|].
    cbn [strip_bom]. destruct (cp =? 65279); [|by exists []].
    exists (utf16 cp). by rewrite units_cons. }
  destruct Hstrip as [w Hw]. rewrite Hd, app_assoc in Hw.
  rewrite <- separator_of_bytes in Hw.
  apply (ascii_infix_of_decoded _ _ _ Start _ _ I) in Hw; [done|].
  unfold Wire.is_ascii. repeat constructor; by vm_compute.
Qed.

(** X14. A binary frame is discarded exactly when its bytes do not hold
    the separator: then it leaves the session as it was; in every other
    case it contributes a fragment. *)
Theorem frame_is_discarded_iff_bytes_lack_separator (bytes : list byte) :
  ((forall pre rest, bytes <> pre ++ Wire.separator_bytes ++ rest)
   <-> fragment bytes = None)
  /\ (fragment bytes = None -> forall s : session, deal bytes s = s).
Proof.
  assert (Hnone : fragment bytes = None
                  <-> includes (decode bytes) separator = false).
  { unfold fragment. rewrite <- indexOf_includes.
    destruct (_ =? _) eqn:Hi.
    - apply Z.eqb_eq in Hi. done.
    - apply Z.eqb_neq in Hi. split; [done|]. intros; contradiction. }
  split.
  - rewrite Hnone. split.
    + intros Hno. destruct (includes (decode bytes) separator) eqn:Hi; [|done].
      destruct (separator_in_decoded _ Hi) as (pre & rest & Hb).
      by destruct (Hno pre rest).
    + intros Hi pre rest ->.
      assert (Hd : decode (pre ++ Wire.separator_bytes ++ rest)
                   = decode pre ++ separator
                     ++ units (code_points Start rest)).
      { rewrite decode_app_ascii; [done|done|].
        unfold Wire.is_ascii. repeat constructor; by vm_compute. }
      apply indexOf_includes in Hi. unfold indexOf in Hi.
      destruct (find separator _) as [i|] eqn:Hf; [lia|].
      by apply (find_None _ _ _ _ Hf) in Hd.
  - intros Hf s. apply Hnone, indexOf_missing in Hf.
    unfold deal. by rewrite Hf.
Qed.

End Discard.

(** ** Sessions of well-formed frames *)
Section WellFormed.
Context `{Collaborators}.

Lemma well_formed_fragment (frame : list byte) :
  Wire.well_formed frame ->
  fragment frame = Wire.payload frame /\ is_Some (Wire.payload frame).
Proof.
  intros (header & audio & -> & Hh).
  assert (Hd : decode (header ++ Wire.separator_bytes ++ audio)
               = (byte_val <$> header) ++ separator
                 ++ units (code_points Start audio)).
  { rewrite app_assoc, decode_ascii_prefix.
    - by rewrite fmap_app, separator_of_bytes, <- app_assoc.
    - by destruct header.
    - apply Forall_app. split; [done|].
      unfold Wire.is_ascii. repeat constructor; by vm_compute. }
  destruct (find_separator_ascii header audio
              (units (code_points Start audio))) as (i & Hf & Hp).
  rewrite Hp. split; [|eauto].
  unfold fragment, indexOf. rewrite Hd, Hf.
  assert (Hi : (Z.of_nat i =? -1) = false) by (apply Z.eqb_neq; lia).
  rewrite Hi. do 2 f_equal. lia.
Qed.

Lemma well_formed_fragments (frames : list (list byte)) :
  Forall Wire.well_formed frames ->
  omap fragment frames = omap Wire.payload frames
  /\ length (omap Wire.payload frames) = length frames.
Proof.
  induction 1 as [|frame frames Hw _ [IH1 IH2]]; [done|].
  destruct (well_formed_fragment frame Hw) as [Hf [audio Hp]].
  cbn [omap list_omap]. rewrite Hf, Hp, IH1. simpl. by rewrite IH2.
Qed.

(** The promise after streaming frames and a termination frame. *)
Lemma streaming_outcome requestId options st ws (fs : list data) t :
  Forall streaming fs -> termination t ->
  let s := run (Message <$> fs) (start requestId options st ws) in
  promise (run (finalization t s) s) = outcome (the_subtitle st) fs.
Proof.
  intros Hfs [Hm Ht]. cbv zeta.
  destruct (feed_fields fs Hfs (start requestId options st ws))
    as (Hr & Hs & Ha & He & Hu & Ho & Hp).
  simpl in Hr, Hs, Ha, He, Hu, Ho, Hp.
  set (s := run (Message <$> fs) (start requestId options st ws)) in *.
  rewrite finalization_finish by done.
  destruct (drained_fields s) as (Hda & Hde & Hds & Hdo).
  rewrite Hr, Ha in Hda. rewrite Hr, He in Hde. rewrite Hs in Hds.
  rewrite Ho in Hdo. simpl in Hda, Hde.
  unfold outcome. destruct (first_failure (texts fs)) as [err|].
  - rewrite finish_settled; rewrite drained_promise, Hp; done.
  - rewrite finish_outcome by (by rewrite drained_promise).
    by rewrite totalLength_concat, Hda, Hde, Hds, Hdo.
Qed.

(** X15. A session whose binary frames are well formed (an ASCII header,
    the separator, the audio), whose metadata frames all parse, and whose
    frames declare no more bytes than they carry is fulfilled, whatever the
    interleaving: the audio is the concatenation of the frames' payload
    sections in arrival order, one per binary frame, and the subtitle is
    built from the parsed metadata in arrival order. *)
Theorem well_formed_session_delivers_the_payloads
    requestId options st ws (fs : list data) t :
  Forall streaming fs -> termination t ->
  Forall Wire.well_formed (binaries fs) ->
  first_failure (texts fs) = None ->
  let payloads := omap Wire.payload (binaries fs) in
  declared_total (binaries fs) <= Z.of_nat (length (concat payloads)) ->
  let s := run (Message <$> fs) (start requestId options st ws) in
  promise (run (finalization t s) s)
  = Fulfilled {| audio := blob_of payloads (str "audio/mp3");
                 subtitles := parseSubtitle (metadata fs) (the_subtitle st) |}
  /\ length payloads = length (binaries fs).
Proof.
  intros Hfs Ht Hw Hok. cbv zeta. intros Hlen.
  destruct (well_formed_fragments _ Hw) as [Hfrag Hcount].
  split; [|done].
  rewrite streaming_outcome by done. unfold outcome.
  rewrite Hok, Hfrag.
  destruct ((0 <? declared_total (binaries fs))
            && (Z.of_nat (length (concat (omap Wire.payload (binaries fs))))
                <? declared_total (binaries fs))) eqn:Hc; [|done].
  apply andb_true_iff in Hc as [_ Hc]. apply Z.ltb_lt in Hc. lia.
Qed.

End WellFormed.

(** ** More on the metadata frames *)
Section Markers.
Context `{Collaborators}.

Lemma find_first (pat s pre rest : jsstring) :
  s = pre ++ pat ++ rest ->
  (forall pre' rest', s = pre' ++ pat ++ rest' -> (length pre <= length pre')%nat) ->
  find pat s = Some (length pre).
Proof.
  intros Hs Hmin. destruct (find pat s) as [i|] eqn:Hf.
  - destruct (find_spec _ _ _ Hf) as (rest0 & Hs0 & Hmin0).
    specialize (Hmin0 _ _ Hs). specialize (Hmin _ _ Hs0).
    rewrite length_take in Hmin. f_equal. lia.
  - by destruct (find_None _ _ pre rest Hf).
Qed.

Lemma find_absent (pat s : jsstring) :
  (forall pre rest, s <> pre ++ pat ++ rest) -> find pat s = None.
Proof.
  intros Hno. destruct (find pat s) as [i|] eqn:Hf; [|done].
  destruct (find_spec _ _ _ Hf) as (rest & Hs & _). by destruct (Hno _ _ Hs).
Qed.

Lemma split_go_skip (pat : jsstring) (k : nat) (cur s : jsstring) :
  split_go pat k cur s = split_go pat 0 cur (drop k s).
Proof.
  revert k. induction s as [|c s IH]; intros [|k]; try done.
  cbn [split_go drop]. apply IH.
Qed.

Lemma split_go_none (pat s cur : jsstring) :
  find pat s = None -> split_go pat 0 cur s = [rev cur ++ s].
Proof.
  revert cur. induction s as [|c s IH]; intros cur; cbn [find split_go].
  - by rewrite app_nil_r.
  - destruct (starts_with pat (c :: s)); [done|].
    destruct (find pat s); [done|]. intros _. rewrite IH by done.
    simpl. by rewrite <- app_assoc.
Qed.

Lemma split_go_found (pat s cur : jsstring) (i : nat) :
  pat <> [] -> find pat s = Some i ->
  split_go pat 0 cur s
  = (rev cur ++ take i s) :: split_go pat 0 [] (drop (i + length pat) s).
Proof.
  intros Hpat. revert cur i.
  induction s as [|c s IH]; intros cur i; cbn [find split_go].
  - destruct pat; [done|]. done.
  - destruct (starts_with pat (c :: s)).
    + intros [= <-]. rewrite split_go_skip. simpl. rewrite app_nil_r.
      do 2 f_equal. destruct pat; [done|]. simpl. by rewrite Nat.sub_0_r.
    + destruct (find pat s) as [j|]; [|done]. intros [= <-].
      rewrite (IH _ j) by done. simpl. by rewrite <- app_assoc.
Qed.

Lemma trim_start_white (ws l : jsstring) :
  Forall (fun c => is_white_space c = true) ws ->
  trim_start (ws ++ l) = trim_start l.
Proof. induction 1 as [|c ws Hc _ IH]; [done|]. simpl. by rewrite Hc. Qed.

Lemma trim_start_stays (l : jsstring) :
  (forall c l', l = c :: l' -> is_white_space c = false) -> trim_start l = l.
Proof. destruct l as [|c l]; [done|]. intros Hc. simpl. by rewrite (Hc c l). Qed.

(** [trim] strips the white space around a text that neither starts nor
    ends with white space. *)
Lemma trim_spec (ws1 core ws2 : jsstring) :
  Forall (fun c => is_white_space c = true) ws1 ->
  Forall (fun c => is_white_space c = true) ws2 ->
  (forall c l, core = c :: l -> is_white_space c = false) ->
  (forall c l, core = l ++ [c] -> is_white_space c = false) ->
  trim (ws1 ++ core ++ ws2) = core.
Proof.
  intros H1 H2 Hhead Hlast. unfold trim.
  rewrite trim_start_white by done.
  assert (Hfront : trim_start (core ++ ws2) = core ++ ws2
                   \/ (core = [] /\ trim_start (core ++ ws2) = [])).
  { destruct core as [|c core].
    - right. split; [done|]. simpl.
      pose proof (trim_start_white ws2 [] H2) as Hw.
      by rewrite app_nil_r in Hw.
    - left. apply trim_start_stays. intros c' l' [= <- <-]. by apply (Hhead c core). }
  destruct Hfront as [-> | [-> ->]]; [|done].
  rewrite rev_app_distr, trim_start_white by (by apply Forall_rev).
  rewrite trim_start_stays; [apply rev_involutive|].
  intros c l Hrev. apply (Hlast c (rev l)).
  rewrite <- (rev_involutive core), Hrev. done.
Qed.

(** X16. The text handed to [JSON.parse] for a metadata frame is what
    follows the first metadata marker, without the white space and line
    breaks around it: the header lines before the marker play no part. A
    second marker in the frame ends the payload, and what follows it is
    dropped. *)
Theorem metadata_payload_is_the_trimmed_body (head ws1 core ws2 : jsstring) :
  let body := ws1 ++ core ++ ws2 in
  Forall (fun c => is_white_space c = true) ws1 ->
  Forall (fun c => is_white_space c = true) ws2 ->
  (forall c l, core = c :: l -> is_white_space c = false) ->
  (forall c l, core = l ++ [c] -> is_white_space c = false) ->
  ((forall p q, head ++ metadata_marker ++ body = p ++ metadata_marker ++ q ->
      (length head <= length p)%nat) ->
   (forall p q, body <> p ++ metadata_marker ++ q) ->
   metadata_payload (head ++ metadata_marker ++ body) = Some core)
  /\ (forall tail,
        (forall p q,
           head ++ metadata_marker ++ body ++ metadata_marker ++ tail
           = p ++ metadata_marker ++ q -> (length head <= length p)%nat) ->
        (forall p q, body ++ metadata_marker ++ tail = p ++ metadata_marker ++ q ->
           (length body <= length p)%nat) ->
        metadata_payload
          (head ++ metadata_marker ++ body ++ metadata_marker ++ tail)
        = Some core).
Proof.
  cbv zeta. intros H1 H2 Hhead Hlast.
  assert (Hdrop : forall l : jsstring,
    drop (length head + length metadata_marker) (head ++ metadata_marker ++ l) = l).
  { intros l. rewrite app_assoc, drop_app_length'; [done|].
    by rewrite length_app. }
  split.
  - intros Hfirst Hno. unfold metadata_payload, split.
    rewrite (split_go_found _ _ _ (length head));
      [|done|by apply (find_first _ _ head (ws1 ++ core ++ ws2))].
    rewrite Hdrop, split_go_none by (by apply find_absent).
    simpl. by rewrite trim_spec.
  - intros tail Hfirst Hsecond. unfold metadata_payload, split.
    rewrite (split_go_found _ _ _ (length head));
      [|done|by apply (find_first _ _ head
                         ((ws1 ++ core ++ ws2) ++ metadata_marker ++ tail))].
    rewrite Hdrop.
    rewrite (split_go_found _ _ _ (length (ws1 ++ core ++ ws2)));
      [|done|by apply (find_first _ _ (ws1 ++ core ++ ws2) tail)].
    simpl. rewrite take_app_length. by rewrite trim_spec.
Qed.

End Markers.

(** ** The Content-Length text of a binary frame *)

Section ContentLength.
Context `{Collaborators}.

Lemma same_letter_canonicalize (a b : code_unit) :
  Wire.same_letter a b <-> canonicalize a = canonicalize b.
Proof.
  unfold Wire.same_letter, canonicalize.
  destruct (Z.leb_spec 97 a), (Z.leb_spec a 122),
    (Z.leb_spec 97 b), (Z.leb_spec b 122); simpl; lia.
Qed.

Lemma same_letters_ci (pat key : jsstring) :
  Forall2 Wire.same_letter pat key <-> Wire.ci_equal key pat.
Proof.
  unfold Wire.ci_equal. revert key.
  induction pat as [|p pat IH]; intros key.
  - split.
    + by inversion 1.
    + destruct key; [constructor|done].
  - split.
    + inversion 1 as [|? c ? key' Hpc Hrest]; subst. simpl.
      apply same_letter_canonicalize in Hpc. apply IH in Hrest. congruence.
    + destruct key as [|c key]; [done|]. simpl. intros [= Hc Hrest].
      constructor; [by apply same_letter_canonicalize|by apply IH].
Qed.

Lemma digit_is_digit (c : code_unit) : Wire.digit c <-> is_digit c = true.
Proof.
  unfold Wire.digit, is_digit.
  destruct (Z.leb_spec 48 c), (Z.leb_spec c 57); simpl; split; (lia || done).
Qed.

(** The text before the first separator of the decoded frame is the
    header text the source cuts out. *)
Lemma headerText_first bytes (header rest : jsstring) :
  decode bytes = header ++ Wire.separator_text ++ rest ->
  (forall p q, decode bytes = p ++ Wire.separator_text ++ q ->
     (length header <= length p)%nat) ->
  headerText bytes = Some header.
Proof.
  intros Hd Hmin. unfold headerText, indexOf.
  rewrite (find_first separator (decode bytes) header rest Hd Hmin).
  destruct (Z.of_nat (length header) =? -1) eqn:E;
    [apply Z.eqb_eq in E; lia|].
  unfold substring0. by rewrite Nat2Z.id, Hd, take_app_length.
Qed.

(** C6, as amended. For a binary frame that holds the separator, the
    text before the first separator is searched, from the left and
    anywhere in it, for the text [Content-Length: ] (each letter in either
    case, one space behind the colon) followed by a decimal digit. At the
    leftmost such place the whole run of digits is read, and the integer
    it denotes is added to the expected length; the sum is the source's
    as long as it stays within [MAX_SAFE_INTEGER]. When the header text has
    no such place the expected length stays as it was, whatever follows
    the separator. *)
Theorem content_length_accumulates bytes (s : session) (header rest : jsstring) :
  decode bytes = header ++ Wire.separator_text ++ rest ->
  (forall p q, decode bytes = p ++ Wire.separator_text ++ q ->
     (length header <= length p)%nat) ->
  (forall pre key ds post,
     header = pre ++ key ++ ds ++ post ->
     Wire.spells_key key ->
     ds <> [] -> Forall Wire.digit ds ->
     (forall c post', post = c :: post' -> ~ Wire.digit c) ->
     (forall pre', Wire.occurrence pre' header ->
        (length pre <= length pre')%nat) ->
     0 <= expectedLength s ->
     expectedLength s + Wire.decimal_value ds <= MAX_SAFE_INTEGER ->
     expectedLength (deal bytes s)
     = expectedLength s + Wire.decimal_value ds)
  /\ ((forall pre, ~ Wire.occurrence pre header) ->
      expectedLength (deal bytes s) = expectedLength s).
Proof.
  intros Hd Hmin.
  rewrite deal_expectedLength. unfold declared.
  rewrite (headerText_first bytes header rest Hd Hmin).
  cbn [mbind option_bind]. split.
  - intros pre key ds post Hh Hk Hne Hds Hpost Hleft _ _.
    assert (Hf : Wire.first_field header ds).
    { exists pre. split.
      - exists key, post. split; [done|]. split; [by apply same_letters_ci|].
        split; [done|]. split.
        + eapply Forall_impl; [exact Hds|]. intros c. apply digit_is_digit.
        + intros c post' Hp. specialize (Hpost c post' Hp).
          rewrite digit_is_digit in Hpost. by destruct (is_digit c).
      - intros pre' ds' (key' & rest' & Hh' & Hk' & Hne' & Hds' & _).
        apply Hleft. destruct ds' as [|d' ds']; [done|].
        exists key', d', (ds' ++ rest'). split; [done|].
        split; [by apply same_letters_ci|].
        apply digit_is_digit. by inversion Hds'. }
    apply first_field_exec in Hf. rewrite Hf. by rewrite parseInt10_decimal.
  - intros Hno.
    destruct (exec_ci_digits content_length_key header) as [ds|] eqn:He; [|lia].
    apply exec_first_field in He
      as (pre & (key & rest' & Hh & Hk & Hne & Hds & _) & _).
    destruct (Hno pre). destruct ds as [|d ds]; [done|].
    exists key, d, (ds ++ rest'). split; [done|].
    split; [by apply same_letters_ci|].
    apply digit_is_digit. by inversion Hds.
Qed.

End ContentLength.

(** ** Runs on the concrete platform *)

#[local] Existing Instance Demo.collaborators.

(** C2. A binary frame whose header line holds a letter that UTF-8
    encodes in two bytes, then the separator, then the bytes 1, 2, 3: its
    payload section is 1, 2, 3, and after the termination frame the promise
    is fulfilled with the audio 10, 1, 2, 3, which starts with the last
    byte of the separator. The separator starts at byte 11 of the frame and
    at index 10 of the decoded text, and the code uses the index as a byte
    offset. *)
Theorem accent_header_shifts_the_fragment :
  let s := run [Message (Binary Demo.frame_accent); Message Demo.turn_end; Bytes 0]
             Demo.session0 in
  Wire.payload Demo.frame_accent = Some (Demo.bytes_of [1; 2; 3])
  /\ indexOf (decode Demo.frame_accent) separator = 10
  /\ take 11 Demo.frame_accent ++ Wire.separator_bytes ++ Demo.bytes_of [1; 2; 3]
     = Demo.frame_accent
  /\ exists r, promise s = Fulfilled r
       /\ blob_bytes (audio r) = Demo.bytes_of [10; 1; 2; 3].
Proof.
  cbv zeta. split; [by vm_compute|]. split; [by vm_compute|].
  split; [by vm_compute|]. eexists. split; by vm_compute.
Qed.

(** A frame with the service's two length bytes in front: each byte
    before the separator decodes to one code unit, and the fragment is the
    payload. *)
Example length_prefixed_frame :
  fragment Demo.frame_prefixed = Wire.payload Demo.frame_prefixed
  /\ fragment Demo.frame_prefixed = Some (Demo.bytes_of [255; 243; 100; 196]).
Proof. split; by vm_compute. Qed.

(** C4. A frame that declares ten bytes and carries four, then the
    termination frame: the promise is rejected with the incomplete-audio
    error, and the deadline timer is still armed and the socket still
    open. A metadata frame that does not parse: the promise is rejected and
    the timer cleared, and the socket is still open. *)
Theorem incomplete_audio_keeps_timer_and_socket :
  let s := run [Message (Binary Demo.frame_short); Message Demo.turn_end; Bytes 0]
             Demo.session0 in
  let s' := run [Message Demo.bad_metadata_frame] Demo.session0 in
  (promise s = Rejected (IncompleteAudio 4 10)
   /\ timeout s = Armed
   /\ readyState (socket s) = OPEN)
  /\ (promise s' = Rejected (SyntaxError (str "oops"))
      /\ timeout s' = Cleared
      /\ readyState (socket s') = OPEN).
Proof. cbv zeta. repeat split; by vm_compute. Qed.

(** The session after a termination frame has fulfilled its promise: a
    close event, an error event, a frame and the timer change nothing. *)
Lemma single_settlement_witness :
  let s := run [Message Demo.turn_end] Demo.session0 in
  promise s <> Pending
  /\ promise (run [Close 1006 []; Error (); Message Demo.bad_metadata_frame; Timer] s)
     = promise s.
Proof.
  cbv zeta. split; [by vm_compute|].
  apply single_settlement. by vm_compute.
Defined.

(** The frame that declares ten bytes and carries four fails validation. *)
Lemma length_validation_witness :
  let s := run [Message (Binary Demo.frame_short)] Demo.session0 in
  promise (run (finalization (str "Path:turn.end") s) s)
  = Rejected (IncompleteAudio 4 10).
Proof.
  cbv zeta.
  apply (length_validation
           (run [Message (Binary Demo.frame_short)] Demo.session0)
           (str "Path:turn.end")); by vm_compute.
Defined.

(** A frame of ASCII text without the separator. *)
Lemma frame_without_separator_witness :
  deal (ascii_bytes "Content-Length: 9") Demo.session0 = Demo.session0.
Proof.
  apply (frame_without_separator_is_discarded
           (ascii_bytes "Content-Length: 9") Demo.session0).
  by vm_compute.
Defined.

(** A key in mixed letter case at the head of the header text; the same
    text among the audio bytes is not counted. *)
Lemma content_length_witness :
  expectedLength (deal Demo.frame_mixed_case Demo.session0)
  = expectedLength Demo.session0 + 4.
Proof.
  refine (proj1 (content_length_accumulates Demo.frame_mixed_case
                   Demo.session0 (str "content-LENGTH: 4" ++ CRLF)
                   (str "Content-Length: 9") _ _)
            [] (str "content-LENGTH: ") (str "4") CRLF _ _ _ _ _ _ _ _).
  - by vm_compute.
  - intros p q Hpq.
    assert (Hf : find Wire.separator_text (decode Demo.frame_mixed_case)
                 = Some 19%nat) by (by vm_compute).
    destruct (find_spec _ _ _ Hf) as (_ & _ & Hfirst).
    apply (Hfirst p q Hpq).
  - reflexivity.
  - unfold Wire.spells_key.
    let a := eval vm_compute in (str "Content-Length: ") in
    let b := eval vm_compute in (str "content-LENGTH: ") in
    change (Forall2 Wire.same_letter a b).
    repeat (constructor; [unfold Wire.same_letter; lia|]). constructor.
  - done.
  - let a := eval vm_compute in (str "4") in change (Forall Wire.digit a).
    repeat (constructor; [unfold Wire.digit; lia|]). constructor.
  - intros c post' [= <- <-]. unfold Wire.digit. lia.
  - intros pre' _. cbn. lia.
  - by vm_compute.
  - by vm_compute.
Defined.

(** C6, counterexample. The header block of this frame is the one line
    [X-Content-Length: 5]: no line has the key Content-Length, and the
    source adds 5 to the expected length all the same, because it searches
    the header text for the key's letters anywhere. *)
Lemma foreign_key_is_counted :
  decode Demo.frame_foreign_key
  = (str "X-Content-Length: 5" ++ CRLF) ++ Wire.separator_text ++ [1; 2; 3]
  /\ Wire.advertises_content_length (str "X-Content-Length: 5" ++ CRLF) = false
  /\ expectedLength Demo.session0 = 0
  /\ expectedLength (deal Demo.frame_foreign_key Demo.session0) = 5.
Proof. repeat split; by vm_compute. Qed.

(** C10, counterexample. An empty subtitle object is neither undefined
    nor null, and [generate] gives it both defaults: its subtitle options
    are not the caller's object. A property [splitBy] that the caller's
    object holds as undefined is not given its default. *)
Lemma empty_subtitle_is_defaulted :
  (subtitle Demo.options_empty_subtitle <> Undefined
   /\ subtitle Demo.options_empty_subtitle <> Null)
  /\ the_subtitle (settings_of Demo.options_empty_subtitle) = default_subtitle
  /\ the_subtitle (settings_of Demo.options_empty_subtitle)
     <> subtitle_by_nullish (subtitle Demo.options_empty_subtitle)
  /\ the_subtitle (settings_of Demo.options_undefined_splitBy)
       !! "splitBy"%string = Some VUndefined.
Proof.
  split; [by split|]. split; [|split].
  - cbn. unfold spread. apply (left_id_L ∅ (∪)).
  - cbn. unfold spread. rewrite (left_id_L ∅ (∪)).
    intros Heq. apply (f_equal (fun m : object => m !! "count"%string)) in Heq.
    by vm_compute in Heq.
  - by vm_compute.
Qed.

(** A metadata frame with the payload [oops], then a termination frame and
    a close event. *)
Lemma malformed_metadata_witness :
  promise (run [Message Demo.turn_end; Close 1000 []]
             (step (Message Demo.bad_metadata_frame) Demo.session0))
  = Rejected (SyntaxError (str "oops")).
Proof.
  apply (proj2 (malformed_metadata_is_fatal Demo.session0
                  (str "Path:audio.metadata" ++ CRLF ++ CRLF ++ str "oops")
                  (str "oops") [Message Demo.turn_end; Close 1000 []]
                  eq_refl eq_refl eq_refl)).
  by vm_compute.
Defined.

(** The close event on a session that has just started. *)
Lemma close_before_completion_witness :
  promise (step (Close 1006 (str "gone")) Demo.session0)
  = Rejected (UnexpectedClose 1006 (str "gone")).
Proof.
  apply (proj1 (close_before_completion Demo.session0 1006 (str "gone")
                  (reachable_start _ _ _ _))).
  by vm_compute.
Defined.

(** The empty output format. *)
Lemma connect_witness :
  Connect.connect (Value []) = inl OutputFormatRequired.
Proof.
  apply (proj1 connect_requires_output_format (Value [])). by vm_compute.
Defined.

(** The caller who passes the empty string as output format. *)
Lemma generate_defaults_witness :
  generate
    {| text := str "Hi"; voice := Undefined; language := Null;
       outputFormat := Value []; rate := Undefined; pitch := Undefined;
       volume := Undefined; subtitle := Undefined |}
  = inl OutputFormatRequired.
Proof.
  refine (proj1 (proj2 (proj2 (proj2 (proj2 (proj2 (proj2 (proj2
            (generate_defaults _)))))))) _).
  by vm_compute.
Defined.

(** The scenario of the specification: a metadata frame, a binary frame
    that declares and carries the bytes 1, 2, 3, 4, and the termination
    frame. *)
Lemma streaming_then_termination_witness :
  let s := run [Message Demo.metadata_frame; Message (Binary Demo.frame4)]
             Demo.session0 in
  promise (run (finalization (str "Path:turn.end") s) s)
  = Fulfilled {| audio := blob_of [Demo.bytes_of [1; 2; 3; 4]] (str "audio/mp3");
                 subtitles := 1%nat |}.
Proof.
  cbv zeta.
  refine (eq_trans (proj1 (streaming_then_termination (str "0") Demo.options
            (settings_of Demo.options) Demo.opened
            [Demo.metadata_frame; Binary Demo.frame4] (str "Path:turn.end")
            _ eq_refl eq_refl)) _).
  - repeat constructor.
  - by vm_compute.
Defined.

(** The header of the scenario's frame is ASCII. *)
Lemma ascii_header_fragment_witness :
  fragment Demo.frame4 = Wire.payload Demo.frame4.
Proof.
  refine (proj1 (ascii_header_fragment
            (ascii_bytes "Content-Length: 4" ++ [Byte.x0d; Byte.x0a])
            (Demo.bytes_of [1; 2; 3; 4]) _)).
  unfold Wire.is_ascii. repeat constructor; by vm_compute.
Defined.

(** The timer on a session that has just started. *)
Lemma deadline_witness :
  promise (step Timer Demo.session0) = Rejected SessionTimeout.
Proof.
  refine (proj1 (proj2 (deadline_settles_pending_session Demo.session0
            (reachable_start _ _ _ _) _))).
  by vm_compute.
Defined.

(** The socket closes, then the timer fires. *)
Lemma connect_timer_witness :
  Connect.promise (Connect.run [Connect.Close; Connect.Timer] Demo.connecting)
    = Pending
  <-> Connect.timeout (Connect.run [Connect.Close; Connect.Timer] Demo.connecting)
      = Armed.
Proof.
  apply (proj1 (connect_timer_follows_promise
                  (str "audio-24khz-96kbitrate-mono-mp3") Demo.connecting
                  [Connect.Close; Connect.Timer] eq_refl)).
Defined.

(** Two close events, then the open event, then an error. *)
Lemma connect_first_event_witness :
  Connect.promise
    (Connect.run (replicate 2 Connect.Close
                  ++ Connect.Open :: [Connect.Error (tt : @Event Demo.collaborators)]) Demo.connecting)
  = Fulfilled ().
Proof.
  apply (proj1 (proj2 (connect_first_event_decides
                         (str "audio-24khz-96kbitrate-mono-mp3")
                         Demo.connecting 2 [Connect.Error (tt : @Event Demo.collaborators)] eq_refl))).
Defined.

(** An error, then the open event, then the timer. *)
Lemma connect_sends_witness :
  sent (Connect.ws (Connect.run [Connect.Error (tt : @Event Demo.collaborators); Connect.Open; Connect.Timer]
                      Demo.connecting))
  = [Connect.initialMessage (str "audio-24khz-96kbitrate-mono-mp3")].
Proof.
  apply (connect_sends_only_the_configuration
           (str "audio-24khz-96kbitrate-mono-mp3") Demo.connecting
           [Connect.Error (tt : @Event Demo.collaborators); Connect.Open; Connect.Timer] eq_refl).
Defined.

(** The default options: [connect]'s timer fails [generate]. *)
Lemma request_follows_witness :
  resume (str "0") Demo.options (settings_of Demo.options)
    (Connect.step Connect.Timer Demo.connecting)
  = Some (inl ConnectTimeout).
Proof.
  apply (proj1 (proj2 (proj2 (request_follows_the_configuration (str "0")
                  Demo.options (settings_of Demo.options) Demo.connecting
                  eq_refl)))).
Defined.

(** Frames and events without a termination frame; the last textual frame
    holds both markers. *)
Lemma nothing_is_delivered_witness :
  rawAudioChunks
    (run [Message Demo.metadata_frame; Message (Binary Demo.frame4);
          Message (Text (str "Path:response")); Bytes 0;
          Message (Text (str "Path:turn.end Path:audio.metadata {}"));
          Message (Binary Demo.frame_short)] Demo.session0)
  = [Demo.frame4; Demo.frame_short].
Proof.
  refine (proj1 (proj2 (nothing_is_delivered_before_termination (str "0")
            Demo.options (settings_of Demo.options) Demo.opened
            [Message Demo.metadata_frame; Message (Binary Demo.frame4);
             Message (Text (str "Path:response")); Bytes 0;
             Message (Text (str "Path:turn.end Path:audio.metadata {}"));
             Message (Binary Demo.frame_short)] _))).
  repeat constructor; intros [Hm Ht]; vm_compute in Hm, Ht; discriminate.
Defined.

(** The scenario's frame is queued, the termination frame comes, and the
    socket closes before the chunk's bytes are there. *)
Lemma interrupted_finalization_witness :
  promise (run [Message Demo.turn_end; Close 1000 []; Bytes 0]
             (step (Message (Binary Demo.frame4)) Demo.session0))
  = Rejected (UnexpectedClose 1000 []).
Proof.
  refine (proj1 (interrupted_finalization_fails
            (step (Message (Binary Demo.frame4)) Demo.session0)
            (str "Path:turn.end") [Bytes 0]
            (reachable_step _ _ (reachable_start _ _ _ _)) _ _ _) 1000 []).
  - by vm_compute.
  - by vm_compute.
  - split; by vm_compute.
Defined.

(** A second binary frame that comes after the termination frame. *)
Lemma late_frame_witness :
  let s := step (Message (Binary Demo.frame4)) Demo.session0 in
  run [Message Demo.turn_end; Message (Binary Demo.frame_short);
       Bytes 0; Bytes 0] s
  = run [Message (Binary Demo.frame_short); Message Demo.turn_end;
         Bytes 0; Bytes 0] s.
Proof.
  cbv zeta.
  refine (proj1 (late_frame_joins_the_drain
            (step (Message (Binary Demo.frame4)) Demo.session0)
            (str "Path:turn.end") Demo.frame_short _ _) _).
  - split; by vm_compute.
  - by vm_compute.
  - by vm_compute.
Defined.

(** The metadata frame of the scenario: a header line, the marker, two
    line breaks and the JSON text. *)
Lemma metadata_payload_witness :
  metadata_payload
    ((str "X-RequestId:0" ++ CRLF) ++ metadata_marker
     ++ (CRLF ++ CRLF) ++ str "{}" ++ [])
  = Some (str "{}").
Proof.
  refine (proj1 (metadata_payload_is_the_trimmed_body
            (str "X-RequestId:0" ++ CRLF) (CRLF ++ CRLF) (str "{}") []
            _ _ _ _) _ _).
  - repeat constructor.
  - constructor.
  - by intros c l [= <- <-].
  - intros c [|a [|a' l]] Heq; try (injection Heq as <-; done).
    + injection Heq as _ <-. done.
    + injection Heq as _ _ Heq. by destruct l.
  - intros p q Hpq.
    assert (Hf : find metadata_marker
                   ((str "X-RequestId:0" ++ CRLF) ++ metadata_marker
                    ++ (CRLF ++ CRLF) ++ str "{}" ++ []) = Some 15%nat)
      by (by vm_compute).
    destruct (find_spec _ _ _ Hf) as (rest & _ & Hmin).
    apply (Hmin p q Hpq).
  - intros p q Hpq.
    by apply (find_None metadata_marker ((CRLF ++ CRLF) ++ str "{}" ++ []) p q).
Defined.

(** The scenario of the specification, by its frames' shape. *)
Lemma well_formed_session_witness :
  let s := run [Message Demo.metadata_frame; Message (Binary Demo.frame4)]
             Demo.session0 in
  promise (run (finalization (str "Path:turn.end") s) s)
  = Fulfilled {| audio := blob_of [Demo.bytes_of [1; 2; 3; 4]] (str "audio/mp3");
                 subtitles := 1%nat |}.
Proof.
  cbv zeta.
  refine (proj1 (well_formed_session_delivers_the_payloads (str "0")
            Demo.options (settings_of Demo.options) Demo.opened
            [Demo.metadata_frame; Binary Demo.frame4] (str "Path:turn.end")
            _ _ _ _ _)).
  - repeat constructor.
  - split; by vm_compute.
  - repeat constructor.
    exists (ascii_bytes "Content-Length: 4" ++ [Byte.x0d; Byte.x0a]),
      (Demo.bytes_of [1; 2; 3; 4]).
    split; [done|]. unfold Wire.is_ascii. repeat constructor; by vm_compute.
  - by vm_compute.
  - by vm_compute.
Defined.
